(** * register-github-accounts: a model of [index.js] and its properties

    The script drives a browser through GitHub's signup form, once per
    email address read from [emails.txt].  This development embeds the
    script function by function:

    - JavaScript strings are [string]s, one [ascii] per UTF-16 code unit
      (the Latin-1 range; the ellipsis in one selector text of the script
      is outside it and stands as its bytes);
    - an [async] function body is a resumption ([prog]): a tree of
      synchronous effects and of [await]ed operations, the answers of the
      browser, of the remote page and of the random sources being supplied
      by the environment;
    - [Promise.all] interleaves resumptions in the order in which the event
      loop settles their pending operations;
    - the orchestrator and the batch driver are written in a state and
      error monad over the environment and the trace of events.

    Resource limits of the JavaScript engine (maximal string and array
    sizes) and the rounding of floating-point numbers are not modelled. *)

From Stdlib Require Import List String Ascii Bool Arith ZArith NArith Lia Permutation.
Import ListNotations.

Local Open Scope string_scope.
Local Open Scope list_scope.
Local Open Scope nat_scope.

Set Implicit Arguments.

(** ** JavaScript strings *)

Module JsString.

(** [s.split(sep)] for a one-character separator: never the empty
    array, the empty string gives one empty piece. *)
Fixpoint split (sep : ascii) (s : string) : list string :=
  match s with
  | EmptyString => [EmptyString]
  | String c rest =>
      if Ascii.eqb c sep then EmptyString :: split sep rest
      else match split sep rest with
           | [] => [String c EmptyString]
           | piece :: pieces => String c piece :: pieces
           end
  end.

Fixpoint map (f : ascii -> ascii) (s : string) : string :=
  match s with
  | EmptyString => EmptyString
  | String c rest => String (f c) (map f rest)
  end.

Definition in_range (lo hi c : ascii) : bool :=
  (nat_of_ascii lo <=? nat_of_ascii c) && (nat_of_ascii c <=? nat_of_ascii hi).

(** The character class [a-zA-Z0-9]. *)
Definition alnum (c : ascii) : bool :=
  in_range "a" "z" c || in_range "A" "Z" c || in_range "0" "9" c.

(** [s.replace(/[^a-zA-Z0-9]/g, 'x')]. *)
Definition replace_non_alnum (s : string) : string :=
  map (fun c => if alnum c then c else "x"%char) s.

(** White space of [String.prototype.trim] in the Latin-1 range: TAB, LF,
    VT, FF, CR, SP and NBSP. *)
Definition white (c : ascii) : bool :=
  let n := nat_of_ascii c in
  ((9 <=? n) && (n <=? 13)) || (n =? 32) || (n =? 160).

Fixpoint trimStart (s : string) : string :=
  match s with
  | EmptyString => EmptyString
  | String c rest => if white c then trimStart rest else s
  end.

Fixpoint trimEnd (s : string) : string :=
  match s with
  | EmptyString => EmptyString
  | String c rest =>
      match trimEnd rest with
      | EmptyString => if white c then EmptyString else String c EmptyString
      | kept => String c kept
      end
  end.

Definition trim (s : string) : string := trimEnd (trimStart s).

(** [pieces.join('')], where [undefined] entries print as nothing. *)
Fixpoint join (pieces : list (option ascii)) : string :=
  match pieces with
  | [] => EmptyString
  | Some c :: rest => String c (join rest)
  | None :: rest => join rest
  end.

Fixpoint mem (c : ascii) (s : string) : bool :=
  match s with
  | EmptyString => false
  | String d rest => Ascii.eqb c d || mem c rest
  end.

Fixpoint all (p : ascii -> bool) (s : string) : bool :=
  match s with
  | EmptyString => true
  | String c rest => p c && all p rest
  end.

(** The part of [s] before its first [sep], all of [s] when it has
    none. *)
Fixpoint before_first (sep : ascii) (s : string) : string :=
  match s with
  | EmptyString => EmptyString
  | String c rest =>
      if Ascii.eqb c sep then EmptyString else String c (before_first sep rest)
  end.

End JsString.

(** ** Errors and results *)

Inductive error : Type :=
| RangeError (what : string)         (* invalid typed array length *)
| ReferenceError (name : string)     (* [name] is not defined *)
| TypeError (what : string)          (* a member of [undefined] was read *)
| TimeoutError                       (* a bounded wait of the library ran out *)
| PageError (what : string)          (* any other rejection by the browser *)
| Thrown (what : string).            (* [throw "..."] of the script itself *)


Inductive outcome (A : Type) : Type :=
| Ok (a : A)        (* the promise is fulfilled *)
| Err (e : error)   (* the promise is rejected *)
| Hang.             (* the promise never settles *)

Arguments Ok {A} a.
Arguments Err {A} e.
Arguments Hang {A}.

(** ** What the script asks of its collaborators *)

Definition Browser := nat.
Definition Page := nat.
Definition Handle := nat.
Definition FileChooser := nat.

(** The XPath expressions of the script all have the shape
    [//tag[contains(., "text")]], some followed by [[not(@disabled)]]. *)
Record XPath : Type := { tag : string; text : string; enabled_only : bool }.

Definition containing (tag text : string) : XPath :=
  {| tag := tag; text := text; enabled_only := false |}.
Definition enabled (tag text : string) : XPath :=
  {| tag := tag; text := text; enabled_only := true |}.

(** The options object of a wait: [timeout] is [None] when the script
    leaves it out. *)
Record WaitOptions : Type := { timeout : option nat; visible : bool }.

Definition no_options : WaitOptions := {| timeout := None; visible := false |}.

Record Rect : Type := { top : Z; left : Z; right : Z; bottom : Z }.

(** Operations whose promise the script awaits.  A call of
    [handle.evaluate(fn)] is named after what [fn] reads or does in the
    page. *)
Inductive op : Type :=
| Launch                                              (* puppeteer.launch({ headless: false }) *)
| NewPage (b : Browser)
| SetViewport (p : Page) (width height : nat)
| Goto (p : Page) (url : string)
| Close (b : Browser)
| WaitForTimeout (p : Page) (ms : nat)
| WaitForXPath (p : Page) (x : XPath) (o : WaitOptions)
| Query (p : Page) (x : XPath)                        (* page.$x(x) *)
| ComputedVisibility (h : Handle)                     (* window.getComputedStyle(el).visibility *)
| Click (h : Handle)                                  (* el.click() *)
| GetAttribute (h : Handle) (name : string)           (* el.getAttribute(name) *)
| BoundingClientRect (h : Handle)                     (* el.getBoundingClientRect() *)
| KeyboardType (p : Page) (text : string) (delay : nat)
| MouseClick (p : Page) (x y : Z)
| WaitForNavigation (p : Page) (timeout : option nat)
| WaitForFileChooser (p : Page)
| Accept (f : FileChooser) (paths : list string).

(** What the promise of an operation is fulfilled with. *)
Definition res (o : op) : Type :=
  match o with
  | Launch => Browser
  | NewPage _ => Page
  | Query _ _ => list Handle
  | ComputedVisibility _ => string
  | GetAttribute _ _ => option string
  | BoundingClientRect _ => Rect
  | WaitForFileChooser _ => FileChooser
  | _ => unit
  end.

(** The form steps of one account, as the orchestrator calls them. *)
Inductive step : Type :=
| Username | Announcements | Password | Captcha | Email | Configuration | Avatar.

(** Entry into a step function and its normal return: observation points
    of the model, the script prints nothing there. *)
Inductive mark : Type := Enter (s : step) | Exit (s : step).

Inductive logline : Type :=
| LogEmail (email : string)   (* console.log("Account email:", email) *)
| LogError (e : error).       (* console.log(error) *)

(** Synchronous effects. *)
Inductive sop : Type :=
| MathRandom              (* Math.random(), as the numerator of a fraction over 2^53 *)
| RandomFill (n : nat)    (* crypto.randomFillSync on a fresh Uint32Array of n elements *)
| ConsoleLog (l : logline)
| Mark (m : mark).

Definition sres (o : sop) : Type :=
  match o with
  | MathRandom => N
  | RandomFill _ => nat -> Z
  | _ => unit
  end.

(** The body of an [async] function: it returns, throws, performs a
    synchronous effect, or awaits an operation and goes on with what the
    operation was fulfilled with. *)
Inductive prog (A : Type) : Type :=
| Ret (a : A)
| Throw (e : error)
| Sync (o : sop) (k : sres o -> prog A)
| Await (o : op) (k : res o -> prog A).

Arguments Ret {A} a.
Arguments Throw {A} e.
Arguments Sync {A} o k.
Arguments Await {A} o k.

Fixpoint bind {A B : Type} (p : prog A) (f : A -> prog B) : prog B :=
  match p with
  | Ret a => f a
  | Throw e => Throw e
  | Sync o k => Sync o (fun x => bind (k x) f)
  | Await o k => Await o (fun x => bind (k x) f)
  end.

Definition await (o : op) : prog (res o) := Await o Ret.
Definition sync (o : sop) : prog (sres o) := Sync o Ret.

Declare Scope prog_scope.
Delimit Scope prog_scope with prog.
Bind Scope prog_scope with prog.
Notation "x <- p ;; q" := (bind p (fun x => q))
  (at level 61, p at next level, right associativity) : prog_scope.
Notation "p ;; q" := (bind p (fun _ => q))
  (at level 61, right associativity) : prog_scope.

(** A step function called by the orchestrator, with its observation
    points. *)
Definition call {A : Type} (s : step) (body : prog A) : prog A :=
  (sync (Mark (Enter s)) ;; a <- body ;; sync (Mark (Exit s)) ;; Ret a)%prog.

(** ** The functions of [index.js] *)

Local Open Scope prog_scope.

Definition default_length : Z := 20.
Definition default_characters : string :=
  "0123456789ABCDEFGHIJKLMNOPQRSTUVWXYZabcdefghijklmnopqrstuvwxyz~!@-#$".

(** An omitted argument takes the default of its parameter. *)
Definition or_default {A : Type} (d : A) (arg : option A) : A :=
  match arg with Some a => a | None => d end.

(** [characters[x % characters.length]]: [undefined] for the empty
    string, where the remainder is [NaN]. *)
Definition pick_character (characters : string) (x : Z) : option ascii :=
  let n := Z.of_nat (String.length characters) in
  if (n =? 0)%Z then None else String.get (Z.to_nat (x mod n)) characters.

(** The elements of a [Uint32Array] of [n] elements filled from the
    random source [fill]: each wraps modulo 2^32. *)
Definition uint32_elements (fill : nat -> Z) (n : nat) : list Z :=
  map (fun i => (fill i mod 2 ^ 32)%Z) (seq 0 n).

Definition generatePassword (length : option Z) (characters : option string)
  : prog string :=
  let length := or_default default_length length in
  let characters := or_default default_characters characters in
  if (length <? 0)%Z then Throw (RangeError "Invalid typed array length")
  else
    fill <- sync (RandomFill (Z.to_nat length)) ;;
    Ret (JsString.join
           (map (pick_character characters)
                (uint32_elements fill (Z.to_nat length)))).

(** [Math.floor(Math.random() * 500) + 500]. *)
Definition getRandomTimeout : prog nat :=
  r <- sync MathRandom ;;
  Ret (N.to_nat ((r mod 2 ^ 53) * 500 / 2 ^ 53 + 500)).

Definition startBrowser : prog (Browser * Page) :=
  browser <- await Launch ;;
  page <- await (NewPage browser) ;;
  await (SetViewport page 800 600) ;;
  Ret (browser : Browser, page : Page).

Definition sleep (page : Page) : prog unit :=
  ms <- getRandomTimeout ;; await (WaitForTimeout page ms).

Fixpoint clickVisibleContinue (buttons : list Handle) : prog unit :=
  match buttons with
  | [] => Ret tt
  | button :: rest =>
      visibility <- await (ComputedVisibility button) ;;
      let isVisible := negb (String.eqb visibility "hidden") in
      if isVisible then await (Click button) ;; Ret tt
      else clickVisibleContinue rest
  end.

(** [const [h] = handles]: the first handle, [undefined] when there is
    none. *)
Definition first_of (handles : list Handle) : option Handle := hd_error handles.

(** [h.evaluate(...)] on a handle that may be [undefined]. *)
Definition evaluate {A : Type} (h : option Handle) (f : Handle -> prog A) : prog A :=
  match h with
  | Some h => f h
  | None => Throw (TypeError "Cannot read properties of undefined (reading 'evaluate')")
  end.

Definition no_timeout_visible : WaitOptions := {| timeout := Some 0; visible := true |}.
Definition only_visible : WaitOptions := {| timeout := None; visible := true |}.

Definition clickOnEmailField (page : Page) : prog unit :=
  await (WaitForXPath page (containing "label" "Enter your email") no_timeout_visible) ;;
  handles <- await (Query page (containing "label" "Enter your email")) ;;
  let emailLabel := first_of handles in
  emailLabelCoordinates <- evaluate emailLabel (fun h => await (BoundingClientRect h)) ;;
  await (MouseClick page (left emailLabelCoordinates + 4) (top emailLabelCoordinates + 4)).

(** What a name is bound to where it is read. *)
Inductive binding : Type :=
| Imported
| Function
| PageValue (p : Page)
| BrowserValue (b : Browser)
| OtherValue.

Definition scope := list (string * binding).

(** The top level of the module: its imports and its function
    declarations. *)
Definition module_scope : scope :=
  [("fs", Imported); ("readline", Imported); ("crypto", Imported);
   ("puppeteer", Imported); ("StealthPlugin", Imported);
   ("generatePassword", Function); ("getRandomTimeout", Function);
   ("startBrowser", Function); ("clickVisibleContinue", Function);
   ("clickOnEmailField", Function); ("checkEmailExistOrInvalid", Function);
   ("enterEmail", Function); ("enterPassword", Function);
   ("enterUsername", Function); ("enterRejectAnnouncements", Function);
   ("waitForUserSolvedCaptcha", Function);
   ("chooseAccountConfigurations", Function);
   ("continueRecommendedPlanPage", Function); ("continueForFree", Function);
   ("setAccountConfiguration", Function);
   ("openAccountNavigationSidebar", Function); ("openSettingsPage", Function);
   ("showUploadButton", Function); ("clickUploadPhoto", Function);
   ("submitAvatar", Function); ("uploadAcatar", Function);
   ("changeUserAvatar", Function); ("createGithubAccount", Function)].

Fixpoint lookup (name : string) (sc : scope) : option binding :=
  match sc with
  | [] => None
  | (n, b) :: rest => if String.eqb n name then Some b else lookup name rest
  end.

(** [name.close()] where [name] is read in the scope [sc]: a name that
    is bound nowhere is a [ReferenceError] of the module (the global object
    of Node has no [browser]). *)
Definition close_named (name : string) (sc : scope) : prog unit :=
  match lookup name sc with
  | Some (BrowserValue b) => await (Close b)
  | Some _ => Throw (TypeError (name ++ ".close is not a function")%string)
  | None => Throw (ReferenceError name)
  end.

Definition checkEmailExistOrInvalid (page : Page) : prog unit :=
  handles <- await (Query page (containing "p" "Email is invalid or already taken")) ;;
  let isExistMailP := first_of handles in
  sleep page ;;
  match isExistMailP with
  | Some p =>
      hidden <- await (GetAttribute p "hidden") ;;
      let isEmailExist := match hidden with None => true | Some _ => false end in
      if isEmailExist then
        (* the parameters and constants of this function, then the module *)
        close_named "browser"
          ([("page", PageValue page); ("isExistMailP", OtherValue);
            ("isEmailExist", OtherValue)] ++ module_scope) ;;
        Throw (Thrown "Email exist")
      else Ret tt
  | None => Ret tt
  end.

Definition enterEmail (browser : Browser) (page : Page) (email : string) : prog unit :=
  clickOnEmailField page ;;
  await (KeyboardType page email 100) ;;
  sleep page ;;
  checkEmailExistOrInvalid page ;;
  await (WaitForXPath page (enabled "button" "Continue") only_visible) ;;
  submitButtons <- await (Query page (containing "button" "Continue")) ;;
  clickVisibleContinue submitButtons.

Definition enterPassword (page : Page) : prog unit :=
  password <- generatePassword None None ;;
  sleep page ;;
  await (WaitForXPath page (containing "label" "Create a password") no_timeout_visible) ;;
  await (KeyboardType page password 100) ;;
  await (WaitForXPath page (enabled "button" "Continue") no_options) ;;
  sleep page ;;
  submitButtons <- await (Query page (enabled "button" "Continue")) ;;
  clickVisibleContinue submitButtons.

Definition enterUsername (page : Page) (username : string) : prog unit :=
  sleep page ;;
  await (WaitForXPath page (containing "label" "Enter a username") no_timeout_visible) ;;
  await (KeyboardType page username 100) ;;
  await (WaitForXPath page (enabled "button" "Continue") no_options) ;;
  sleep page ;;
  submitButtons <- await (Query page (enabled "button" "Continue")) ;;
  clickVisibleContinue submitButtons.

Definition enterRejectAnnouncements (page : Page) : prog unit :=
  sleep page ;;
  await (WaitForXPath page
           (containing "label" "Would you like to receive product updates and")
           no_timeout_visible) ;;
  await (KeyboardType page "n" 100) ;;
  await (WaitForXPath page (enabled "button" "Continue") no_options) ;;
  sleep page ;;
  submitButtons <- await (Query page (enabled "button" "Continue")) ;;
  clickVisibleContinue submitButtons.

Definition waitForUserSolvedCaptcha (page : Page) : prog unit :=
  sleep page ;;
  await (WaitForXPath page (containing "button" "Create account") no_timeout_visible) ;;
  await (WaitForXPath page (enabled "button" "Create account") no_options) ;;
  sleep page ;;
  submitButtons <- await (Query page (enabled "button" "Create account")) ;;
  sleep page ;;
  clickVisibleContinue submitButtons.

Definition chooseAccountConfigurations (page : Page) : prog unit :=
  await (WaitForXPath page (containing "label" "Just me") no_options) ;;
  await (WaitForXPath page (containing "label" "N/A") no_options) ;;
  handles <- await (Query page (containing "label" "Just me")) ;;
  evaluate (first_of handles) (fun justMeLabel => await (Click justMeLabel)) ;;
  handles <- await (Query page (containing "label" "N/A")) ;;
  evaluate (first_of handles) (fun nALabel => await (Click nALabel)) ;;
  submitButtons <- await (Query page (enabled "button" "Continue")) ;;
  sleep page ;;
  clickVisibleContinue submitButtons ;;
  await (WaitForNavigation page None).

Definition continueRecommendedPlanPage (page : Page) : prog unit :=
  submitButtons <- await (Query page (enabled "button" "Continue")) ;;
  sleep page ;;
  clickVisibleContinue submitButtons ;;
  await (WaitForNavigation page None).

Definition continueForFree (page : Page) : prog unit :=
  submitButtons <- await (Query page (enabled "a" "Continue for free")) ;;
  sleep page ;;
  clickVisibleContinue submitButtons ;;
  await (WaitForNavigation page (Some 0)) ;;
  sleep page.

Definition setAccountConfiguration (page : Page) : prog unit :=
  chooseAccountConfigurations page ;;
  continueRecommendedPlanPage page ;;
  continueForFree page.

Definition openAccountNavigationSidebar (page : Page) : prog unit :=
  handles <- await (Query page (containing "summary" "Filter")) ;;
  filterSummaryCoordinates <-
    evaluate (first_of handles) (fun h => await (BoundingClientRect h)) ;;
  await (MouseClick page (right filterSummaryCoordinates)
           (top filterSummaryCoordinates - 42)) ;;
  sleep page.

Definition openSettingsPage (page : Page) : prog unit :=
  await (WaitForXPath page (containing "span" "Settings") only_visible) ;;
  handles <- await (Query page (containing "span" "Settings")) ;;
  evaluate (first_of handles) (fun settingsSpan => await (Click settingsSpan)) ;;
  await (WaitForNavigation page None).

Definition showUploadButton (page : Page) : prog unit :=
  await (WaitForXPath page (containing "summary" "Edit") only_visible) ;;
  handles <- await (Query page (containing "summary" "Edit")) ;;
  evaluate (first_of handles) (fun editSummary => await (Click editSummary)) ;;
  sleep page.

Definition clickUploadPhoto (page : Page) : prog unit :=
  await (WaitForXPath page (containing "label" "Upload a photo…") only_visible) ;;
  handles <- await (Query page (containing "label" "Upload a photo…")) ;;
  evaluate (first_of handles) (fun UploadPhotoLabel => await (Click UploadPhotoLabel)).

Definition submitAvatar (page : Page) : prog unit :=
  await (WaitForXPath page (containing "button" "Set new profile picture") only_visible) ;;
  handles <- await (Query page (containing "button" "Set new profile picture")) ;;
  evaluate (first_of handles) (fun setPhoto => await (Click setPhoto)).

(** [email.split("@")[0].replace(/[^a-zA-Z0-9]/g, 'x')]: a [TypeError]
    if the array of pieces had no first entry. *)
Definition derive_username (email : string) : prog string :=
  match nth_error (JsString.split "@" email) 0 with
  | Some local_part => Ret (JsString.replace_non_alnum local_part)
  | None => Throw (TypeError "Cannot read properties of undefined (reading 'replace')")
  end.

(** The five field steps, in the order of the array literal handed to
    [Promise.all]. *)
Definition field_steps (browser : Browser) (page : Page) (email username : string)
  : list (prog unit) :=
  [ call Username (enterUsername page username);
    call Announcements (enterRejectAnnouncements page);
    call Password (enterPassword page);
    call Captcha (waitForUserSolvedCaptcha page);
    call Email (enterEmail browser page email) ].

Local Close Scope prog_scope.

(** ** The environment: browser, remote page, random sources *)

(** How the environment answers an awaited operation. *)
Inductive reply (X : Type) : Type :=
| Settles (ms : nat) (x : X)   (* fulfilled with [x] after [ms] milliseconds *)
| Rejects (what : string)      (* rejected by the browser *)
| Never.                       (* left pending for ever *)

Arguments Settles {X} ms x.
Arguments Rejects {X} what.
Arguments Never {X}.

Record Environment : Type := {
  World : Type;
  respond : forall o : op, World -> reply (res o) * World;
  sync_respond : forall o : sop, World -> sres o * World
}.

(** Puppeteer bounds its waits by 30 seconds unless told otherwise; a
    timeout of 0 disables the bound. *)
Definition default_timeout : nat := 30000.

Definition effective (t : option nat) : option nat :=
  match t with
  | None => Some default_timeout
  | Some 0 => None
  | Some ms => Some ms
  end.

(** The bound of an operation, [None] when it has none. *)
Definition bound (o : op) : option nat :=
  match o with
  | WaitForXPath _ _ opts => effective (timeout opts)
  | WaitForNavigation _ t => effective t
  | WaitForFileChooser _ => Some default_timeout
  | Goto _ _ => Some default_timeout
  | _ => None
  end.

(** How the promise of [o] settles when the environment answers [r]. *)
Definition settle (o : op) (r : reply (res o)) : outcome (res o) :=
  match r, bound o with
  | Settles ms x, Some limit => if ms <=? limit then Ok x else Err TimeoutError
  | Settles _ x, None => Ok x
  | Rejects what, _ => Err (PageError what)
  | Never, Some _ => Err TimeoutError
  | Never, None => Hang
  end.

Inductive status : Type := Settled | Rejected (e : error) | Pending.

Inductive event : Type :=
| Did (o : sop)                     (* a synchronous effect took place *)
| Awaited (o : op) (how : status).  (* an operation was issued and ended so *)

Definition status_of {A : Type} (r : outcome A) : status :=
  match r with Ok _ => Settled | Err e => Rejected e | Hang => Pending end.

Section Semantics.

Variable E : Environment.

(** The state of a run: the world outside, and the order in which the
    event loop will settle the pending promises of concurrent tasks (an
    index into the tasks at each turn). *)
Record St : Type := { world : World E; loop : list nat }.

Definition with_world (w : World E) (s : St) : St := {| world := w; loop := loop s |}.
Definition with_loop (l : list nat) (s : St) : St := {| world := world s; loop := l |}.

Record Run (R : Type) : Type := { result : R; final : St; trace : list event }.

Definition stop {R : Type} (r : R) (s : St) : Run R :=
  {| result := r; final := s; trace := [] |}.

Definition after {R : Type} (t : list event) (r : Run R) : Run R :=
  {| result := result r; final := final r; trace := t ++ trace r |}.

(** An awaited operation, answered by the environment. *)
Definition perform (o : op) (s : St) : Run (outcome (res o)) :=
  let (r, w) := respond E o (world s) in
  {| result := settle o r; final := with_world w s;
     trace := [Awaited o (status_of (settle o r))] |}.

Definition perform_sync (o : sop) (s : St) : Run (sres o) :=
  let (x, w) := sync_respond E o (world s) in
  {| result := x; final := with_world w s; trace := [Did o] |}.

(** A body run alone, from its first statement to its end. *)
Fixpoint run {A : Type} (p : prog A) (s : St) : Run (outcome A) :=
  match p with
  | Ret a => stop (Ok a) s
  | Throw e => stop (Err e) s
  | Sync o k =>
      let r := perform_sync o s in after (trace r) (run (k (result r)) (final r))
  | Await o k =>
      let r := perform o s in
      match result r with
      | Ok x => after (trace r) (run (k x) (final r))
      | Err e => {| result := Err e; final := final r; trace := trace r |}
      | Hang => {| result := Hang; final := final r; trace := trace r |}
      end
  end.

(** *** Concurrent tasks *)

(** A body runs without interruption up to its next [await]. *)
Fixpoint advance {A : Type} (p : prog A) (s : St) : Run (prog A) :=
  match p with
  | Sync o k =>
      let r := perform_sync o s in after (trace r) (advance (k (result r)) (final r))
  | _ => stop p s
  end.

(** A task of [Promise.all]: a suspended body, or [None] once it awaits
    a promise that never settles. *)
Definition pool (A : Type) : Type := list (option (prog A)).

(** The promise a suspended body awaits settles, and the body goes on to
    its next [await]. *)
Definition resume {A : Type} (p : prog A) (s : St) : Run (option (prog A)) :=
  match p with
  | Await o k =>
      let r := perform o s in
      match result r with
      | Ok x =>
          let r' := advance (k x) (final r) in
          {| result := Some (result r'); final := final r';
             trace := trace r ++ trace r' |}
      | Err e => {| result := Some (Throw e); final := final r; trace := trace r |}
      | Hang => {| result := None; final := final r; trace := trace r |}
      end
  | _ => stop (Some p) s
  end.

(** The calls in the array literal: each body runs to its first
    [await], in order. *)
Fixpoint start_all {A : Type} (ps : list (prog A)) (s : St) : Run (pool A) :=
  match ps with
  | [] => stop [] s
  | p :: rest =>
      let r := advance p s in
      let r' := start_all rest (final r) in
      {| result := Some (result r) :: result r'; final := final r';
         trace := trace r ++ trace r' |}
  end.

Fixpoint resume_at {A : Type} (i : nat) (pl : pool A) (s : St) : Run (pool A) :=
  match pl, i with
  | [], _ => stop [] s
  | Some p :: rest, 0 =>
      let r := resume p s in
      {| result := result r :: rest; final := final r; trace := trace r |}
  | None :: rest, 0 => stop pl s
  | t :: rest, S i' =>
      let r := resume_at i' rest s in
      {| result := t :: result r; final := final r; trace := trace r |}
  end.

(** The first rejected task, if any. *)
Fixpoint rejected {A : Type} (pl : pool A) : option error :=
  match pl with
  | [] => None
  | Some (Throw e) :: _ => Some e
  | _ :: rest => rejected rest
  end.

(** The values of the tasks, once all are fulfilled. *)
Fixpoint fulfilled {A : Type} (pl : pool A) : option (list A) :=
  match pl with
  | [] => Some []
  | Some (Ret a) :: rest => option_map (cons a) (fulfilled rest)
  | _ => None
  end.

(** When the event loop has no turn left to tell, the tasks that remain
    finish one after the other, in the order of the array. *)
Fixpoint drain {A : Type} (pl : pool A) (s : St) : Run (outcome (list A)) :=
  match pl with
  | [] => stop (Ok []) s
  | t :: rest =>
      let r := match t with Some p => run p s | None => stop Hang s end in
      match result r with
      | Err e => {| result := Err e; final := final r; trace := trace r |}
      | Ok a =>
          let r' := drain rest (final r) in
          {| result := match result r' with Ok vs => Ok (a :: vs) | other => other end;
             final := final r'; trace := trace r ++ trace r' |}
      | Hang =>
          let r' := drain rest (final r) in
          {| result := match result r' with Err e => Err e | _ => Hang end;
             final := final r'; trace := trace r ++ trace r' |}
      end
  end.

(** [Promise.all] after the tasks were started: rejected as soon as one
    task is, fulfilled when all are; otherwise the next turn of the event
    loop resumes one task.  The other tasks of a rejected [Promise.all] are
    followed no further. *)
Fixpoint settle_all {A : Type} (turns : list nat) (pl : pool A) (s : St)
  : Run (outcome (list A)) :=
  match rejected pl with
  | Some e => stop (Err e) (with_loop turns s)
  | None =>
      match fulfilled pl with
      | Some vs => stop (Ok vs) (with_loop turns s)
      | None =>
          match turns with
          | [] => drain pl s
          | i :: turns' =>
              let r := resume_at (i mod List.length pl) pl s in
              after (trace r) (settle_all turns' (result r) (final r))
          end
      end
  end.

(** *** The monad of the orchestrator *)

Definition M (A : Type) : Type := St -> Run (outcome A).

Definition ret {A : Type} (a : A) : M A := stop (Ok a).
Definition throw {A : Type} (e : error) : M A := stop (Err e).

Definition mbind {A B : Type} (m : M A) (f : A -> M B) : M B :=
  fun s =>
    let r := m s in
    match result r with
    | Ok a => after (trace r) (f a (final r))
    | Err e => {| result := Err e; final := final r; trace := trace r |}
    | Hang => {| result := Hang; final := final r; trace := trace r |}
    end.

Definition promiseAll {A : Type} (ps : list (prog A)) : M (list A) :=
  fun s =>
    let r := start_all ps s in
    after (trace r) (settle_all (loop s) (result r) (final r)).

(** [try { body } catch (error) { handler }]. *)
Definition try_catch {A : Type} (body : M A) (handler : error -> M A) : M A :=
  fun s =>
    let r := body s in
    match result r with
    | Err e => after (trace r) (handler e (final r))
    | _ => r
    end.

End Semantics.

Arguments run E {A} p s.
Arguments ret {E A} a.
Arguments throw {E A} e.
Arguments stop {E R} r s.

Declare Scope m_scope.
Delimit Scope m_scope with M.
Notation "x <- m ;; n" := (mbind m (fun x => n))
  (at level 61, m at next level, right associativity) : m_scope.
Notation "m ;; n" := (mbind m (fun _ => n))
  (at level 61, right associativity) : m_scope.

(** ** The orchestrator and the batch driver *)

Unset Implicit Arguments.

Section Script.

Variable E : Environment.

Local Open Scope m_scope.

(** A step of the orchestrator, with its observation points. *)
Definition called {A : Type} (s : step) (body : M E A) : M E A :=
  run E (sync (Mark (Enter s))) ;;
  a <- body ;;
  run E (sync (Mark (Exit s))) ;;
  ret a.

(** The two entries of the array handed to [Promise.all] by
    [uploadAcatar]: the promise of the file chooser, and the call of
    [clickUploadPhoto], which yields [undefined]. *)
Definition upload_tasks (page : Page) : list (prog (option FileChooser)) :=
  [ (chooser <- await (WaitForFileChooser page) ;; Ret (Some (chooser : FileChooser)))%prog;
    (clickUploadPhoto page ;; Ret None)%prog ].

Definition uploadAcatar (page : Page) : M E unit :=
  results <- promiseAll (upload_tasks page) ;;
  let fileChooser := match results with chooser :: _ => chooser | [] => None end in
  run E (sleep page) ;;
  match fileChooser with
  | Some chooser => run E (await (Accept chooser ["./avatars/cat.png"]))
  | None => throw (TypeError "Cannot read properties of undefined (reading 'accept')")
  end ;;
  run E (sleep page) ;;
  run E (submitAvatar page).

Definition changeUserAvatar (page : Page) : M E unit :=
  run E (openAccountNavigationSidebar page) ;;
  run E (openSettingsPage page) ;;
  run E (showUploadButton page) ;;
  uploadAcatar page.

Definition createGithubAccount (email : string) : M E unit :=
  run E (sync (ConsoleLog (LogEmail email))) ;;
  session <- run E startBrowser ;;
  let browser := fst session in
  let page := snd session in
  run E (await (Goto page "https://github.com/signup")) ;;
  username <- run E (derive_username email) ;;
  promiseAll (field_steps browser page email username) ;;
  called Configuration (run E (setAccountConfiguration page)) ;;
  called Avatar (changeUserAvatar page) ;;
  run E (await (Close browser) : prog unit).

(** The body of the inner loop: an empty entry is skipped, any error of
    the run is printed and dropped. *)
Definition attempt (email : string) : M E unit :=
  if String.eqb email "" then ret tt
  else
    try_catch (createGithubAccount email)
      (fun error => run E (sync (ConsoleLog (LogError error)))).

Fixpoint for_each {A : Type} (body : A -> M E unit) (items : list A) : M E unit :=
  match items with
  | [] => ret tt
  | item :: rest => body item ;; for_each body rest
  end.

(** The entries of one line of [emails.txt]. *)
Definition emails_of (line : string) : list string :=
  map JsString.trim (JsString.split "," line).

(** The script from its first line of input to its last. *)
Definition main (lines : list string) : M E unit :=
  for_each (fun line => for_each attempt (emails_of line)) lines.

End Script.

(** The emails for which the batch driver runs the orchestrator. *)
Definition worklist (lines : list string) : list string :=
  filter (fun email => negb (String.eqb email "")) (List.concat (List.map emails_of lines)).

(** A run of the script begins in the world [w], the event loop taking
    its turns as [turns] tells. *)
Definition boot (E : Environment) (w : World E) (turns : list nat) : St E :=
  {| world := w; loop := turns |}.

(** ** Model pages

    A signup page as the tests of the script would mock it.  Every
    operation that is not a wait is answered at once; a query finds two
    candidate handles, the first hidden by its computed style; the world
    counts the browsers launched so far and names each by its rank. *)

Record page_model : Type := {
  (* the paragraph "Email is invalid or already taken" is in the page *)
  error_paragraph : bool;
  (* its [hidden] attribute *)
  error_hidden : option string;
  (* milliseconds until "Create account" shows, [None]: never *)
  button_shown_after : option nat;
  (* milliseconds until "Create account" is enabled, [None]: never *)
  captcha_solved_after : option nat;
  (* the computed visibility of a handle *)
  visibility_of : Handle -> string
}.

Definition error_handle : Handle := 7.

Definition found (m : page_model) (x : XPath) : list Handle :=
  if String.eqb (text x) "Email is invalid or already taken"
  then (if error_paragraph m then [error_handle] else [])
  else [1; 2].

Definition after_delay (delay : option nat) : reply unit :=
  match delay with Some ms => Settles ms tt | None => Never end.

Definition waited (m : page_model) (x : XPath) : reply unit :=
  if String.eqb (text x) "Create account"
  then after_delay (if enabled_only x then captcha_solved_after m
                    else button_shown_after m)
  else Settles 0 tt.

Definition answer (m : page_model) (o : op) (launched : nat) : reply (res o) * nat :=
  match o as o' return reply (res o') * nat with
  | Launch => (Settles 0 launched, S launched)
  | NewPage b => (Settles 0 b, launched)
  | SetViewport _ _ _ => (Settles 0 tt, launched)
  | Goto _ _ => (Settles 0 tt, launched)
  | Close _ => (Settles 0 tt, launched)
  | WaitForTimeout _ ms => (Settles ms tt, launched)
  | WaitForXPath _ x _ => (waited m x, launched)
  | Query _ x => (Settles 0 (found m x), launched)
  | ComputedVisibility h => (Settles 0 (visibility_of m h), launched)
  | Click _ => (Settles 0 tt, launched)
  | GetAttribute _ _ => (Settles 0 (error_hidden m), launched)
  | BoundingClientRect _ =>
      (Settles 0 {| top := 100; left := 40; right := 240; bottom := 120 |}, launched)
  | KeyboardType _ _ _ => (Settles 0 tt, launched)
  | MouseClick _ _ _ => (Settles 0 tt, launched)
  | WaitForNavigation _ _ => (Settles 0 tt, launched)
  | WaitForFileChooser _ => (Settles 0 3, launched)
  | Accept _ _ => (Settles 0 tt, launched)
  end.

Definition sync_answer (o : sop) (launched : nat) : sres o * nat :=
  match o as o' return sres o' * nat with
  | MathRandom => (0%N, launched)
  | RandomFill _ => (fun i => (Z.of_nat i * 2654435761 + 12345)%Z, launched)
  | ConsoleLog _ => (tt, launched)
  | Mark _ => (tt, launched)
  end.

Definition page_env (m : page_model) : Environment :=
  {| World := nat; respond := answer m; sync_respond := sync_answer |}.

Definition first_hidden (h : Handle) : string :=
  if h =? 1 then "hidden" else "visible".

(** The form accepts the email and the captcha is solved in five
    seconds. *)
Definition happy_page : page_model :=
  {| error_paragraph := true; error_hidden := Some "";
     button_shown_after := Some 0; captcha_solved_after := Some 5000;
     visibility_of := first_hidden |}.

(** The form shows "Email is invalid or already taken". *)
Definition taken_page : page_model :=
  {| error_paragraph := true; error_hidden := None;
     button_shown_after := Some 0; captcha_solved_after := Some 5000;
     visibility_of := first_hidden |}.

(** The "Create account" button never shows. *)
Definition stuck_page : page_model :=
  {| error_paragraph := false; error_hidden := None;
     button_shown_after := None; captcha_solved_after := Some 0;
     visibility_of := first_hidden |}.


(** Three candidates of which only the second is visible. *)
Definition second_visible (h : Handle) : string :=
  if h =? 2 then "visible" else "hidden".

Definition three_buttons_page : page_model :=
  {| error_paragraph := false; error_hidden := None;
     button_shown_after := Some 0; captcha_solved_after := Some 0;
     visibility_of := second_visible |}.

(** The event loop resuming the field steps in turns. *)
Definition some_turns : list nat := [0; 1; 2; 3; 4; 4; 3; 2; 1; 0; 7; 8; 9].

(** ** Reading traces *)

(** An event of a synchronous effect: nothing was awaited. *)
Definition synchronous (e : event) : bool :=
  match e with Did _ => true | Awaited _ _ => false end.

Definition is_launch (e : event) : bool :=
  match e with Awaited Launch Settled => true | _ => false end.

Definition is_close (e : event) : bool :=
  match e with Awaited (Close _) Settled => true | _ => false end.

Definition is_error_log (e : event) : bool :=
  match e with Did (ConsoleLog (LogError _)) => true | _ => false end.

Definition count (p : event -> bool) (t : list event) : nat :=
  List.length (filter p t).

(** The browsers open after [t]: those launched and not closed. *)
Definition open_sessions (t : list event) : nat := count is_launch t - count is_close t.

(** The clicks of [el.click()], in order. *)
Fixpoint clicks (t : list event) : list Handle :=
  match t with
  | [] => []
  | Awaited (Click h) _ :: rest => h :: clicks rest
  | _ :: rest => clicks rest
  end.

(** The emails announced by the orchestrator, in order. *)
Fixpoint announced (t : list event) : list string :=
  match t with
  | [] => []
  | Did (ConsoleLog (LogEmail email)) :: rest => email :: announced rest
  | _ :: rest => announced rest
  end.

(** The errors printed by the batch driver, in order. *)
Fixpoint printed (t : list event) : list error :=
  match t with
  | [] => []
  | Did (ConsoleLog (LogError e)) :: rest => e :: printed rest
  | _ :: rest => printed rest
  end.

(** Events of the form steps proper: neither an observation point, nor a
    line on the console, nor the launch or the closing of a browser. *)
Definition silent_sop (o : sop) : bool :=
  match o with MathRandom | RandomFill _ => true | _ => false end.

Definition silent_op (o : op) : bool :=
  match o with Launch | Close _ => false | _ => true end.

Definition silent (e : event) : bool :=
  match e with Did o => silent_sop o | Awaited o _ => silent_op o end.

(** What is left of a trace when the events of the form steps proper are
    dropped. *)
Definition milestones (t : list event) : list event :=
  filter (fun e => negb (silent e)) t.

Definition entered (s : step) : event := Did (Mark (Enter s)).
Definition exited (s : step) : event := Did (Mark (Exit s)).

Definition fields : list step := [Username; Announcements; Password; Captcha; Email].

(** * Properties *)

(** ** Strings *)

Lemma split_cons (sep : ascii) (s : string) :
  exists piece pieces, JsString.split sep s = piece :: pieces.
Proof.
  destruct s as [|c rest]; simpl.
  - eauto.
  - destruct (Ascii.eqb c sep); [eauto|].
    destruct (JsString.split sep rest); eauto.
Qed.

Lemma split_head (sep : ascii) (s : string) :
  nth_error (JsString.split sep s) 0 = Some (JsString.before_first sep s).
Proof.
  induction s as [|c rest IH]; simpl; [reflexivity|].
  destruct (Ascii.eqb c sep); [reflexivity|].
  destruct (JsString.split sep rest) as [|piece pieces]; simpl in *.
  - discriminate.
  - now inversion IH.
Qed.

Lemma before_first_absent (sep : ascii) (s : string) :
  JsString.mem sep s = false -> JsString.before_first sep s = s.
Proof.
  induction s as [|c rest IH]; simpl; [reflexivity|].
  rewrite Ascii.eqb_sym.
  destruct (Ascii.eqb c sep); simpl; [discriminate|].
  intros H. now rewrite IH.
Qed.

Lemma get_map (f : ascii -> ascii) (s : string) (i : nat) :
  String.get i (JsString.map f s) = option_map f (String.get i s).
Proof.
  revert i. induction s as [|c rest IH]; intros [|i]; simpl; auto.
Qed.

Lemma alnum_x : JsString.alnum "x" = true.
Proof. reflexivity. Qed.

Lemma replace_non_alnum_all (s : string) :
  JsString.all JsString.alnum (JsString.replace_non_alnum s) = true.
Proof.
  induction s as [|c rest IH]; simpl; [reflexivity|].
  unfold JsString.replace_non_alnum in IH. rewrite IH, andb_true_r.
  destruct (JsString.alnum c) eqn:Hc; [exact Hc | exact alnum_x].
Qed.

(** C8.  The username of an email is its part before the first "@", each
    character outside a-z, A-Z, 0-9 replaced by "x" and the other
    characters kept in place; what follows the "@" plays no part; the email
    jane.doe+test@example.com gives janexdoextest. *)
Theorem username_is_local_part_with_filler :
  (forall email : string,
      derive_username email
      = Ret (JsString.replace_non_alnum (JsString.before_first "@" email)))
  /\ (forall (s : string) (i : nat),
         String.get i (JsString.replace_non_alnum s)
         = option_map (fun c => if JsString.alnum c then c else "x"%char)
             (String.get i s))
  /\ (forall s : string,
         JsString.all JsString.alnum (JsString.replace_non_alnum s) = true)
  /\ derive_username "jane.doe+test@example.com" = Ret "janexdoextest".
Proof.
  split; [|split; [|split]].
  - intros email. unfold derive_username. now rewrite split_head.
  - intros s i. apply get_map.
  - apply replace_non_alnum_all.
  - reflexivity.
Qed.

(** C10.  An email without "@" gives the username made from the whole
    string, and the derivation in the orchestrator is fulfilled with it:
    no error, no event, the state unchanged. *)
Theorem username_without_separator
  (E : Environment) (email : string) (s : St E)
  (Hno : JsString.mem "@" email = false) :
  derive_username email = Ret (JsString.replace_non_alnum email)
  /\ run E (derive_username email) s = stop (Ok (JsString.replace_non_alnum email)) s.
Proof.
  assert (H : derive_username email = Ret (JsString.replace_non_alnum email)).
  { unfold derive_username. rewrite split_head.
    now rewrite before_first_absent. }
  split; [exact H|]. now rewrite H.
Qed.

Lemma username_without_separator_witness :
  JsString.mem "@" "jane.doe" = false
  /\ run (page_env happy_page) (derive_username "jane.doe") (boot (page_env happy_page) 0 [])
     = stop (Ok "janexdoe") (boot (page_env happy_page) 0 []).
Proof.
  split; [reflexivity|].
  exact (proj2 (username_without_separator (page_env happy_page) "jane.doe"
                  (boot (page_env happy_page) 0 []) eq_refl)).
Defined.

(** ** The password generator *)

Lemma get_member (s : string) (i : nat) :
  i < String.length s ->
  exists c, String.get i s = Some c /\ JsString.mem c s = true.
Proof.
  revert i. induction s as [|d rest IH]; simpl; intros i Hi; [lia|].
  destruct i as [|i].
  - exists d. now rewrite Ascii.eqb_refl.
  - destruct (IH i) as [c [Hget Hmem]]; [lia|].
    exists c. rewrite Hget, Hmem. now rewrite orb_true_r.
Qed.

Lemma pick_character_index (characters : string) (x : Z) :
  characters <> "" ->
  pick_character characters x
  = String.get (Z.to_nat (x mod Z.of_nat (String.length characters))) characters
  /\ Z.to_nat (x mod Z.of_nat (String.length characters)) < String.length characters.
Proof.
  intros Hne. unfold pick_character.
  assert (Hlen : String.length characters <> 0).
  { destruct characters; simpl; [congruence | lia]. }
  destruct (Z.eqb_spec (Z.of_nat (String.length characters)) 0) as [H0|H0]; [lia|].
  split; [reflexivity|].
  pose proof (Z.mod_pos_bound x (Z.of_nat (String.length characters))). lia.
Qed.

Lemma join_picks (characters : string) (words : list Z) :
  characters <> "" ->
  let password := JsString.join (List.map (pick_character characters) words) in
  String.length password = List.length words
  /\ JsString.all (fun c => JsString.mem c characters) password = true
  /\ forall i, i < List.length words ->
       String.get i password = pick_character characters (nth i words 0%Z).
Proof.
  intros Hne. induction words as [|x rest IH]; simpl.
  - repeat split; auto. intros i Hi. lia.
  - destruct (pick_character_index characters x Hne) as [Hpick Hlt].
    destruct (get_member characters _ Hlt) as [c [Hget Hmem]].
    rewrite Hpick, Hget. simpl. destruct IH as [IHlen [IHall IHget]].
    repeat split.
    + now rewrite IHlen.
    + now rewrite Hmem, IHall.
    + intros [|i] Hi; [now rewrite Hpick, Hget|]. apply IHget. lia.
Qed.

Lemma uint32_elements_length (fill : nat -> Z) (n : nat) :
  List.length (uint32_elements fill n) = n.
Proof. unfold uint32_elements. now rewrite length_map, length_seq. Qed.

Lemma uint32_elements_nth (fill : nat -> Z) (n i : nat) :
  i < n -> nth i (uint32_elements fill n) 0%Z = (fill i mod 2 ^ 32)%Z.
Proof.
  intros Hi. unfold uint32_elements.
  rewrite nth_indep with (d' := (fill O mod 2 ^ 32)%Z)
    by (rewrite length_map, length_seq; exact Hi).
  change (fill O mod 2 ^ 32)%Z with ((fun j => (fill j mod 2 ^ 32)%Z) O).
  rewrite map_nth, seq_nth by exact Hi. reflexivity.
Qed.

(** The run of the generator on a length that is not negative and an
    alphabet that is not empty. *)
Lemma generatePassword_run (E : Environment) (s : St E) (L : Z) (characters : string) :
  (0 <= L)%Z -> characters <> "" ->
  let fill := fst (sync_respond E (RandomFill (Z.to_nat L)) (world s)) in
  exists password,
    result (run E (generatePassword (Some L) (Some characters)) s) = Ok password
    /\ Z.of_nat (String.length password) = L
    /\ JsString.all (fun c => JsString.mem c characters) password = true
    /\ forall i, i < Z.to_nat L ->
         String.get i password
         = String.get
             (Z.to_nat ((fill i mod 2 ^ 32) mod Z.of_nat (String.length characters)))
             characters.
Proof.
  intros HL Hne fill. unfold generatePassword. simpl or_default.
  destruct (Z.ltb_spec L 0) as [Hneg|_]; [lia|].
  simpl. unfold perform_sync. subst fill.
  destruct (sync_respond E (RandomFill (Z.to_nat L)) (world s)) as [fill w]. simpl.
  destruct (join_picks characters (uint32_elements fill (Z.to_nat L)) Hne)
    as [Hlen [Hall Hget]].
  rewrite uint32_elements_length in Hlen, Hget.
  eexists. split; [reflexivity|]. repeat split.
  - rewrite Hlen. lia.
  - exact Hall.
  - intros i Hi. rewrite (Hget i Hi), (uint32_elements_nth fill _ i Hi).
    apply (pick_character_index characters _ Hne).
Qed.




(** C9, amended.  The default alphabet has 68 characters: the ten
    digits, the upper-case and the lower-case letters and the six
    characters ~!@-#$; a password generated with the default arguments has
    20 characters, all of them of this alphabet. *)
Theorem default_alphabet_has_68_characters :
  String.length default_characters = 68
  /\ default_characters
     = ("0123456789" ++ "ABCDEFGHIJKLMNOPQRSTUVWXYZ"
        ++ "abcdefghijklmnopqrstuvwxyz" ++ "~!@-#$")%string
  /\ forall (E : Environment) (s : St E),
       exists password,
         result (run E (generatePassword None None) s) = Ok password
         /\ String.length password = 20
         /\ JsString.all (fun c => JsString.mem c default_characters) password = true.
Proof.
  split; [reflexivity|]. split; [reflexivity|].
  intros E s.
  destruct (generatePassword_run E s default_length default_characters)
    as [password [Hres [Hlen [Hall _]]]].
  - unfold default_length. lia.
  - discriminate.
  - exists password. repeat split; auto.
    unfold default_length in Hlen. lia.
Qed.

(** C9 as stated fails: the default alphabet does not have 70
    characters. *)
Lemma default_alphabet_is_not_70_characters :
  String.length default_characters <> 70.
Proof. discriminate. Qed.

(** ** Runs and their traces *)

(** How an operation can end: its promise is fulfilled, or rejected by
    the browser, or rejected because its bound ran out, or, if it has no
    bound, left pending. *)
Definition may_end (o : op) (how : status) : Prop :=
  match how with
  | Settled => True
  | Rejected (PageError _) => True
  | Rejected TimeoutError => bound o <> None
  | Rejected _ => False
  | Pending => bound o = None
  end.

Lemma settle_may_end (o : op) (r : reply (res o)) : may_end o (status_of (settle o r)).
Proof.
  unfold settle. destruct r as [ms x|what|]; destruct (bound o) as [limit|] eqn:Hb; simpl;
    try rewrite Hb; try congruence; auto.
  destruct (ms <=? limit); simpl; try rewrite Hb; try congruence; auto.
Qed.

(** All the events a body can produce satisfy [P]. *)
Inductive Uses {A : Type} (P : event -> Prop) : prog A -> Prop :=
| uses_ret (a : A) : Uses P (Ret a)
| uses_throw (e : error) : Uses P (Throw e)
| uses_sync (o : sop) (k : sres o -> prog A) :
    P (Did o) -> (forall x, Uses P (k x)) -> Uses P (Sync o k)
| uses_await (o : op) (k : res o -> prog A) :
    (forall how, may_end o how -> P (Awaited o how)) ->
    (forall x, Uses P (k x)) -> Uses P (Await o k).

Definition Silent (e : event) : Prop := silent e = true.

(** Neither a line on the console, nor the launch or the closing of a
    browser. *)
Definition discreet (e : event) : bool :=
  match e with
  | Did (ConsoleLog _) => false
  | Awaited Launch _ | Awaited (Close _) _ => false
  | _ => true
  end.

Definition Discreet (e : event) : Prop := discreet e = true.

Lemma uses_weaken {A : Type} (P Q : event -> Prop) (p : prog A) :
  (forall e, P e -> Q e) -> Uses P p -> Uses Q p.
Proof.
  intros HPQ H. induction H; constructor; auto.
Qed.

Lemma uses_bind {A B : Type} (P : event -> Prop) (p : prog A) (f : A -> prog B) :
  Uses P p -> (forall a, Uses P (f a)) -> Uses P (bind p f).
Proof.
  intros Hp Hf. induction Hp; simpl; try constructor; auto.
Qed.

Lemma silent_discreet (e : event) : Silent e -> Discreet e.
Proof.
  unfold Silent, Discreet. destruct e as [[]|[] how]; simpl; congruence.
Qed.

Lemma mark_discreet (m : mark) : Discreet (Did (Mark m)).
Proof. reflexivity. Qed.

Section Runs.

Variable E : Environment.

Lemma after_nil {R : Type} (r : Run E R) : after [] r = r.
Proof. now destruct r. Qed.

Lemma after_after {R : Type} (t u : list event) (r : Run E R) :
  after t (after u r) = after (t ++ u) r.
Proof. unfold after. simpl. now rewrite app_assoc. Qed.

Lemma run_bind {A B : Type} (p : prog A) (f : A -> prog B) (s : St E) :
  run E (bind p f) s = mbind (run E p) (fun a => run E (f a)) s.
Proof.
  revert s. induction p as [a|e|o k IH|o k IH]; intros s; simpl.
  - unfold mbind. simpl. now rewrite after_nil.
  - reflexivity.
  - rewrite IH. unfold mbind. simpl.
    destruct (result (run E (k (result (perform_sync o s))) (final (perform_sync o s))));
      simpl; try reflexivity.
    now rewrite after_after.
  - unfold mbind. simpl. destruct (result (perform o s)); simpl; try reflexivity.
    rewrite IH. unfold mbind. simpl.
    destruct (result (run E (k a) (final (perform o s)))); simpl; try reflexivity.
    now rewrite after_after.
Qed.

Lemma perform_trace (o : op) (s : St E) :
  trace (perform o s) = [Awaited o (status_of (result (perform o s)))]
  /\ may_end o (status_of (result (perform o s))).
Proof.
  unfold perform. destruct (respond E o (world s)) as [r w]. simpl.
  split; [reflexivity | apply settle_may_end].
Qed.

Lemma perform_sync_trace (o : sop) (s : St E) : trace (perform_sync o s) = [Did o].
Proof. unfold perform_sync. now destruct (sync_respond E o (world s)). Qed.

Lemma run_uses {A : Type} (P : event -> Prop) (p : prog A) (s : St E) :
  Uses P p -> Forall P (trace (run E p s)).
Proof.
  intros H. revert s. induction H as [a|e|o k Ho Hk IH|o k Ho Hk IH]; intros s; simpl.
  - constructor.
  - constructor.
  - rewrite perform_sync_trace. constructor; auto.
  - destruct (perform_trace o s) as [Ht Hm]. apply Ho in Hm.
    destruct (result (perform o s)); simpl; rewrite Ht; repeat constructor; auto.
Qed.

Lemma advance_uses {A : Type} (P : event -> Prop) (p : prog A) (s : St E) :
  Uses P p -> Forall P (trace (advance p s)) /\ Uses P (result (advance p s)).
Proof.
  intros H. revert s. induction H as [a|e|o k Ho Hk IH|o k Ho Hk IH]; intros s; simpl.
  - split; constructor.
  - split; constructor.
  - rewrite perform_sync_trace. destruct (IH (result (perform_sync o s)) (final (perform_sync o s))).
    split; [constructor|]; auto.
  - split; constructor; auto.
Qed.

(** Every task left in a pool produces events of [P] only. *)
Definition PoolUses {A : Type} (P : event -> Prop) (pl : pool A) : Prop :=
  Forall (fun t => match t with Some p => Uses P p | None => True end) pl.

Lemma resume_uses {A : Type} (P : event -> Prop) (p : prog A) (s : St E) :
  Uses P p ->
  Forall P (trace (resume p s))
  /\ match result (resume p s) with Some p' => Uses P p' | None => True end.
Proof.
  intros H. destruct H as [a|e|o k Ho Hk|o k Ho Hk]; simpl;
    try (split; constructor; auto; fail).
  destruct (perform_trace o s) as [Ht Hm]. apply Ho in Hm.
  destruct (result (perform o s)) as [x|e|]; simpl; rewrite Ht.
  - destruct (advance_uses P (k x) (final (perform o s)) (Hk x)).
    split; [constructor|]; auto.
  - split; repeat constructor; auto.
  - split; repeat constructor; auto.
Qed.

Lemma resume_at_uses {A : Type} (P : event -> Prop) (i : nat) (pl : pool A) (s : St E) :
  PoolUses P pl ->
  Forall P (trace (resume_at i pl s)) /\ PoolUses P (result (resume_at i pl s)).
Proof.
  intros H. revert i. induction H as [|t rest Ht Hrest IH]; intros i.
  - destruct i; split; constructor.
  - destruct i as [|i]; simpl.
    + destruct t as [p|]; simpl.
      * destruct (resume_uses P p s Ht). split; [|constructor]; auto.
      * split; constructor; auto.
    + destruct (IH i). destruct t; simpl; (split; [|constructor]; auto).
Qed.

Lemma start_all_uses {A : Type} (P : event -> Prop) (ps : list (prog A)) (s : St E) :
  Forall (Uses P) ps ->
  Forall P (trace (start_all ps s)) /\ PoolUses P (result (start_all ps s)).
Proof.
  intros H. revert s. induction H as [|p rest Hp Hrest IH]; intros s; simpl.
  - split; constructor.
  - destruct (advance_uses P p s Hp). destruct (IH (final (advance p s))).
    split; [apply Forall_app | constructor]; auto.
Qed.

Lemma drain_uses {A : Type} (P : event -> Prop) (pl : pool A) (s : St E) :
  PoolUses P pl -> Forall P (trace (drain pl s)).
Proof.
  intros H. revert s. induction H as [|t rest Ht Hrest IH]; intros s; simpl.
  - constructor.
  - assert (Hr : Forall P (trace (match t with
                                   | Some p => run E p s
                                   | None => stop Hang s
                                   end))).
    { destruct t; [now apply run_uses | constructor]. }
    destruct (result (match t with Some p => run E p s | None => stop Hang s end));
      simpl; auto; apply Forall_app; auto.
Qed.

Lemma settle_all_uses {A : Type} (P : event -> Prop)
  (turns : list nat) (pl : pool A) (s : St E) :
  PoolUses P pl -> Forall P (trace (settle_all turns pl s)).
Proof.
  revert pl s. induction turns as [|i turns IH]; intros pl s H; simpl;
    destruct (rejected pl); try (constructor; fail);
    destruct (fulfilled pl); try (constructor; fail).
  - now apply drain_uses.
  - simpl. destruct (resume_at_uses P (i mod List.length pl) pl s H).
    apply Forall_app; auto.
Qed.

(** *** Runs of the orchestrator *)

Definition Emits {A : Type} (P : event -> Prop) (m : M E A) : Prop :=
  forall s, Forall P (trace (m s)).

Lemma emits_run {A : Type} (P : event -> Prop) (p : prog A) :
  Uses P p -> Emits P (run E p).
Proof. intros H s. now apply run_uses. Qed.

Lemma emits_ret {A : Type} (P : event -> Prop) (a : A) : Emits P (@ret E A a).
Proof. intros s. constructor. Qed.

Lemma emits_throw {A : Type} (P : event -> Prop) (e : error) : Emits P (@throw E A e).
Proof. intros s. constructor. Qed.

Lemma emits_bind {A B : Type} (P : event -> Prop) (m : M E A) (f : A -> M E B) :
  Emits P m -> (forall a, Emits P (f a)) -> Emits P (mbind m f).
Proof.
  intros Hm Hf s. unfold mbind. specialize (Hm s).
  destruct (result (m s)); simpl; auto.
  apply Forall_app. split; auto. apply Hf.
Qed.

Lemma emits_promiseAll {A : Type} (P : event -> Prop) (ps : list (prog A)) :
  Forall (Uses P) ps -> Emits P (promiseAll ps).
Proof.
  intros H s. unfold promiseAll. simpl.
  destruct (start_all_uses P ps s H).
  apply Forall_app. split; auto. now apply settle_all_uses.
Qed.

End Runs.

(** ** The visible-button clicker *)

Definition not_hidden (visibility : Handle -> string) (h : Handle) : bool :=
  negb (String.eqb (visibility h) "hidden").

(** C4.  On handles whose computed visibility the page reports as
    [visibility] and whose click the page carries out, the clicker is
    fulfilled, and its clicks are: one click on the first handle of the list
    that is not "hidden", none if there is no such handle. *)
Theorem clickVisibleContinue_clicks_first_visible
  (E : Environment) (visibility : Handle -> string) (buttons : list Handle) (s : St E)
  (Hvisibility : forall h w, In h buttons ->
     exists ms w', respond E (ComputedVisibility h) w = (Settles ms (visibility h), w'))
  (Hclick : forall h w, In h buttons ->
     exists ms w', respond E (Click h) w = (Settles ms tt, w')) :
  result (run E (clickVisibleContinue buttons) s) = Ok tt
  /\ clicks (trace (run E (clickVisibleContinue buttons) s))
     = match find (not_hidden visibility) buttons with
       | Some h => [h]
       | None => []
       end.
Proof.
  revert s. induction buttons as [|button rest IH]; intros s.
  - split; reflexivity.
  - simpl. unfold perform.
    destruct (Hvisibility button (world s) (or_introl eq_refl)) as [ms [w Hw]].
    rewrite Hw. simpl. unfold not_hidden.
    destruct (String.eqb (visibility button) "hidden"); simpl.
    + apply IH; intros h w' Hin; [apply Hvisibility | apply Hclick]; now right.
    + unfold perform. simpl.
      destruct (Hclick button w (or_introl eq_refl)) as [ms' [w' Hw']].
      rewrite Hw'. simpl. now split.
Qed.

Lemma clickVisibleContinue_clicks_first_visible_witness :
  result (run (page_env three_buttons_page) (clickVisibleContinue [1; 2; 3])
            (boot (page_env three_buttons_page) 0 [])) = Ok tt
  /\ clicks (trace (run (page_env three_buttons_page) (clickVisibleContinue [1; 2; 3])
                      (boot (page_env three_buttons_page) 0 []))) = [2].
Proof.
  apply (clickVisibleContinue_clicks_first_visible (page_env three_buttons_page)
           second_visible [1; 2; 3] (boot (page_env three_buttons_page) 0 [])).
  - intros h w _. exists 0, w. reflexivity.
  - intros h w _. exists 0, w. reflexivity.
Defined.

(** ** Where the errors of a run come from *)

(** All the errors a body throws itself satisfy [Q]. *)
Inductive Raises {A : Type} (Q : error -> Prop) : prog A -> Prop :=
| raises_ret (a : A) : Raises Q (Ret a)
| raises_throw (e : error) : Q e -> Raises Q (Throw e)
| raises_sync (o : sop) (k : sres o -> prog A) :
    (forall x, Raises Q (k x)) -> Raises Q (Sync o k)
| raises_await (o : op) (k : res o -> prog A) :
    (forall x, Raises Q (k x)) -> Raises Q (Await o k).

Lemma raises_bind {A B : Type} (Q : error -> Prop) (p : prog A) (f : A -> prog B) :
  Raises Q p -> (forall a, Raises Q (f a)) -> Raises Q (bind p f).
Proof.
  intros Hp Hf. induction Hp; simpl; try constructor; auto.
Qed.

Lemma uses_clickVisibleContinue (P : event -> Prop) (buttons : list Handle) :
  (forall h how, may_end (ComputedVisibility h) how -> P (Awaited (ComputedVisibility h) how)) ->
  (forall h how, may_end (Click h) how -> P (Awaited (Click h) how)) ->
  Uses P (clickVisibleContinue buttons).
Proof.
  intros Hv Hc. induction buttons as [|button rest IH]; simpl.
  - constructor.
  - constructor; [apply Hv|]. intros visibility.
    destruct (negb (String.eqb visibility "hidden")); [|exact IH].
    constructor; [apply Hc|]. intros x. constructor.
Qed.

Lemma raises_clickVisibleContinue (Q : error -> Prop) (buttons : list Handle) :
  Raises Q (clickVisibleContinue buttons).
Proof.
  induction buttons as [|button rest IH]; simpl.
  - constructor.
  - constructor. intros visibility.
    destruct (negb (String.eqb visibility "hidden")); [|exact IH].
    constructor. intros x. constructor.
Qed.

Ltac head_of t :=
  lazymatch t with
  | ?f _ => head_of f
  | _ => t
  end.

(** Walks through the body of a script function, leaving to [side] what
    is asked of each effect, operation or thrown error. *)
Ltac walk side :=
  repeat
    (intros;
     lazymatch goal with
     | |- context [close_named ?n ?sc] =>
         let v := eval vm_compute in (close_named n sc) in
         change (close_named n sc) with v
     | |- ?U ?P (bind (Throw _) _) => cbn [bind]
     | |- ?U ?P (bind _ _) => first [apply uses_bind | apply raises_bind]
     | |- ?U ?P (Ret _) => constructor
     | |- ?U ?P (Throw _) => constructor; try side
     | |- Uses ?P (Sync _ _) => constructor; [try side|]
     | |- Uses ?P (Await _ _) => constructor; [try side|]
     | |- Raises ?P (Sync _ _) => constructor
     | |- Raises ?P (Await _ _) => constructor
     | |- ?U ?P (await _) => unfold await
     | |- ?U ?P (sync _) => unfold sync
     | |- Uses ?P (clickVisibleContinue _) => apply uses_clickVisibleContinue; try side
     | |- Raises ?P (clickVisibleContinue _) => apply raises_clickVisibleContinue
     | |- ?U ?P (match ?x with _ => _ end) => destruct x
     | |- ?U ?P ?p => let f := head_of p in progress unfold f
     end).

Ltac by_computation := intros; reflexivity.

Lemma silent_enterUsername (page : Page) (username : string) :
  Uses Silent (enterUsername page username).
Proof. walk by_computation. Qed.

Lemma silent_enterRejectAnnouncements (page : Page) :
  Uses Silent (enterRejectAnnouncements page).
Proof. walk by_computation. Qed.

Lemma silent_enterPassword (page : Page) : Uses Silent (enterPassword page).
Proof. walk by_computation. Qed.

Lemma silent_waitForUserSolvedCaptcha (page : Page) :
  Uses Silent (waitForUserSolvedCaptcha page).
Proof. walk by_computation. Qed.

Lemma silent_enterEmail (browser : Browser) (page : Page) (email : string) :
  Uses Silent (enterEmail browser page email).
Proof. walk by_computation. Qed.

Lemma silent_setAccountConfiguration (page : Page) :
  Uses Silent (setAccountConfiguration page).
Proof. walk by_computation. Qed.

Lemma silent_openAccountNavigationSidebar (page : Page) :
  Uses Silent (openAccountNavigationSidebar page).
Proof. walk by_computation. Qed.

Lemma silent_openSettingsPage (page : Page) : Uses Silent (openSettingsPage page).
Proof. walk by_computation. Qed.

Lemma silent_showUploadButton (page : Page) : Uses Silent (showUploadButton page).
Proof. walk by_computation. Qed.

Lemma silent_clickUploadPhoto (page : Page) : Uses Silent (clickUploadPhoto page).
Proof. walk by_computation. Qed.

Lemma silent_submitAvatar (page : Page) : Uses Silent (submitAvatar page).
Proof. walk by_computation. Qed.

Lemma silent_sleep (page : Page) : Uses Silent (sleep page).
Proof. walk by_computation. Qed.

(** Every event a body can produce satisfies [P], given the events of
    the body before it. *)
Inductive Follows {A : Type} (P : list event -> event -> Prop)
  : list event -> prog A -> Prop :=
| follows_ret (past : list event) (a : A) : Follows P past (Ret a)
| follows_throw (past : list event) (e : error) : Follows P past (Throw e)
| follows_sync (past : list event) (o : sop) (k : sres o -> prog A) :
    P past (Did o) ->
    (forall x, Follows P (past ++ [Did o]) (k x)) ->
    Follows P past (Sync o k)
| follows_await (past : list event) (o : op) (k : res o -> prog A) :
    (forall how, may_end o how -> P past (Awaited o how)) ->
    (forall x, Follows P (past ++ [Awaited o Settled]) (k x)) ->
    Follows P past (Await o k).

Section Sources.

Variable E : Environment.

Lemma run_rejected {A : Type} (p : prog A) (s : St E) (o : op) (e : error) :
  In (Awaited o (Rejected e)) (trace (run E p s)) -> result (run E p s) = Err e.
Proof.
  revert s. induction p as [a|e'|o' k IH|o' k IH]; intros s; simpl.
  - tauto.
  - tauto.
  - rewrite perform_sync_trace. simpl. intros [H|H]; [discriminate | now apply IH].
  - destruct (perform_trace E o' s) as [Ht _].
    destruct (result (perform o' s)) as [x|e'|]; simpl; rewrite Ht; simpl.
    + intros [H|H]; [discriminate | now apply IH].
    + intros [H|[]]. congruence.
    + intros [H|[]]. discriminate.
Qed.

Lemma run_error_source {A : Type} (Q : error -> Prop) (p : prog A) (s : St E) (e : error) :
  Raises Q p -> result (run E p s) = Err e ->
  Q e \/ exists o, In (Awaited o (Rejected e)) (trace (run E p s)).
Proof.
  intros H. revert s. induction H as [a|e' He'|o k Hk IH|o k Hk IH]; intros s; simpl.
  - discriminate.
  - intros Heq. left. congruence.
  - intros Heq. destruct (IH _ _ Heq) as [HQ|[o' Ho']]; [now left|].
    right. exists o'. apply in_or_app. now right.
  - destruct (perform_trace E o s) as [Ht _].
    destruct (result (perform o s)) as [x|e'|]; simpl; rewrite Ht; simpl.
    + intros Heq. destruct (IH _ _ Heq) as [HQ|[o' Ho']]; [now left|].
      right. exists o'. now right.
    + intros Heq. right. exists o. left. congruence.
    + discriminate.
Qed.

Lemma run_follows {A : Type} (P : list event -> event -> Prop)
  (past : list event) (p : prog A) (s : St E) :
  Follows P past p ->
  forall before e later,
    trace (run E p s) = before ++ e :: later -> P (past ++ before) e.
Proof.
  intros H. revert s.
  induction H as [past a|past e'|past o k Ho Hk IH|past o k Ho Hk IH];
    intros s before e later; simpl.
  - destruct before; discriminate.
  - destruct before; discriminate.
  - rewrite perform_sync_trace. simpl. destruct before as [|b before]; simpl; intros Heq.
    + inversion Heq; subst. now rewrite app_nil_r.
    + inversion Heq; subst. apply IH in H1.
      now rewrite <- app_assoc in H1.
  - destruct (perform_trace E o s) as [Ht Hm]. apply Ho in Hm.
    destruct (result (perform o s)) as [x|e'|]; simpl in *; rewrite Ht; simpl.
    + destruct before as [|b before]; simpl; intros Heq.
      * inversion Heq; subst. now rewrite app_nil_r.
      * inversion Heq; subst. apply IH in H1.
        now rewrite <- app_assoc in H1.
    + destruct before as [|b [|b' before]]; simpl; intros Heq; inversion Heq; subst.
      now rewrite app_nil_r.
    + destruct before as [|b [|b' before]]; simpl; intros Heq; inversion Heq; subst.
      now rewrite app_nil_r.
Qed.

End Sources.

(** ** The captcha wait *)

(** The wait for the "Create account" button to show, and the wait for
    it to be enabled. *)
Definition shown (page : Page) : op :=
  WaitForXPath page (containing "button" "Create account") no_timeout_visible.
Definition solved (page : Page) : op :=
  WaitForXPath page (enabled "button" "Create account") no_options.








(** On the happy page the step clicks the visible candidate after both
    waits; on the page that never shows the button it hangs in the first
    wait. *)
Example captcha_wait_on_model_pages :
  trace (run (page_env happy_page) (waitForUserSolvedCaptcha 0)
           (boot (page_env happy_page) 0 []))
  = [Did MathRandom; Awaited (WaitForTimeout 0 500) Settled;
     Awaited (shown 0) Settled; Awaited (solved 0) Settled;
     Did MathRandom; Awaited (WaitForTimeout 0 500) Settled;
     Awaited (Query 0 (enabled "button" "Create account")) Settled;
     Did MathRandom; Awaited (WaitForTimeout 0 500) Settled;
     Awaited (ComputedVisibility 1) Settled;
     Awaited (ComputedVisibility 2) Settled; Awaited (Click 2) Settled]
  /\ result (run (page_env happy_page) (waitForUserSolvedCaptcha 0)
               (boot (page_env happy_page) 0 [])) = Ok tt
  /\ trace (run (page_env stuck_page) (waitForUserSolvedCaptcha 0)
              (boot (page_env stuck_page) 0 []))
     = [Did MathRandom; Awaited (WaitForTimeout 0 500) Settled;
        Awaited (shown 0) Pending]
  /\ result (run (page_env stuck_page) (waitForUserSolvedCaptcha 0)
               (boot (page_env stuck_page) 0 [])) = Hang.
Proof. repeat split; vm_compute; reflexivity. Qed.


(** ** The check for a rejected email *)

Lemma uses_may_end {A : Type} (p : prog A) :
  Uses (fun ev => match ev with Awaited o how => may_end o how | Did _ => True end) p.
Proof.
  induction p; constructor; auto.
Qed.

Lemma discreet_counts (t : list event) :
  Forall Discreet t ->
  count is_launch t = 0 /\ count is_close t = 0 /\ announced t = [] /\ printed t = [].
Proof.
  unfold count. induction 1 as [|e t He Ht IH]; simpl; [auto|].
  destruct IH as [H1 [H2 [H3 H4]]].
  destruct e as [[| |[]|]|[] []]; simpl in *; try discriminate; auto.
Qed.

Lemma reference_error_in_checkEmailExistOrInvalid (page : Page) :
  Raises (fun e => e = ReferenceError "browser") (checkEmailExistOrInvalid page).
Proof. walk ltac:(reflexivity). Qed.

Lemma silent_checkEmailExistOrInvalid (page : Page) :
  Uses Silent (checkEmailExistOrInvalid page).
Proof. walk by_computation. Qed.

(** On every model page that shows the paragraph without a [hidden]
    attribute, the check ends in the reference error. *)
Lemma checkEmailExistOrInvalid_on_shown_error
  (m : page_model) (page : Page) (s : St (page_env m)) :
  error_paragraph m = true -> error_hidden m = None ->
  result (run (page_env m) (checkEmailExistOrInvalid page) s)
  = Err (ReferenceError "browser").
Proof.
  intros Hp Hh. unfold checkEmailExistOrInvalid. simpl.
  unfold perform, found. simpl. rewrite Hp. simpl.
  unfold perform. simpl. rewrite Hh. reflexivity.
Qed.

(** C1, the code at the failing input.  Whatever the page answers, the
    check throws no error of the script's own making other than the
    reference error and closes no browser; on the page that shows "Email is
    invalid or already taken" the run of the orchestrator is rejected with
    the reference error on [browser], after the five field steps were
    started and before account configuration, the browser it launched being
    still open. *)
Theorem email_check_raises_reference_error :
  (forall (E : Environment) (page : Page) (s : St E),
      (forall what, result (run E (checkEmailExistOrInvalid page) s) <> Err (Thrown what))
      /\ count is_close (trace (run E (checkEmailExistOrInvalid page) s)) = 0)
  /\ (let r := createGithubAccount (page_env taken_page) "jane.doe+test@example.com"
                 (boot (page_env taken_page) 0 []) in
      result r = Err (ReferenceError "browser")
      /\ milestones (trace r)
         = [Did (ConsoleLog (LogEmail "jane.doe+test@example.com"));
            Awaited Launch Settled;
            entered Username; entered Announcements; entered Password;
            entered Captcha; entered Email;
            exited Username; exited Announcements; exited Password; exited Captcha]
      /\ count is_close (trace r) = 0
      /\ open_sessions (trace r) = 1).
Proof.
  split.
  - intros E page s. split.
    + intros what Herr.
      destruct (run_error_source E _ _ s _
                  (reference_error_in_checkEmailExistOrInvalid page) Herr)
        as [Hq|[o Ho]]; [discriminate|].
      pose proof (run_uses E _ (checkEmailExistOrInvalid page) s
                    (uses_may_end (checkEmailExistOrInvalid page))) as Hm.
      rewrite Forall_forall in Hm. apply Hm in Ho. exact Ho.
    + apply discreet_counts.
      apply Forall_impl with (P := Silent); [apply silent_discreet|].
      apply run_uses, silent_checkEmailExistOrInvalid.
  - vm_compute. repeat split.
Qed.

(** ** Tasks of [Promise.all] and their observation points *)

Lemma milestones_app (t u : list event) :
  milestones (t ++ u) = milestones t ++ milestones u.
Proof. apply filter_app. Qed.

Lemma milestones_silent (t : list event) : Forall Silent t -> milestones t = [].
Proof.
  unfold milestones. induction 1 as [|e t He Ht IH]; simpl; [reflexivity|].
  unfold Silent in He. now rewrite He.
Qed.

(** The rest of a step function called for the step [s]: silent work,
    then the observation point of its return. *)
Inductive Body {A : Type} (s : step) : prog A -> Prop :=
| body_throw (e : error) : Body s (Throw e)
| body_sync (o : sop) (k : sres o -> prog A) :
    silent_sop o = true -> (forall x, Body s (k x)) -> Body s (Sync o k)
| body_await (o : op) (k : res o -> prog A) :
    silent_op o = true -> (forall x, Body s (k x)) -> Body s (Await o k)
| body_exit (a : A) : Body s (Sync (Mark (Exit s)) (fun _ => Ret a)).

(** A body whose first statements lead to an [await]. *)
Inductive Awaits {A : Type} : prog A -> Prop :=
| awaits_throw (e : error) : Awaits (Throw e)
| awaits_sync (o : sop) (k : sres o -> prog A) :
    silent_sop o = true -> (forall x, Awaits (k x)) -> Awaits (Sync o k)
| awaits_await (o : op) (k : res o -> prog A) :
    silent_op o = true -> (forall x, Uses Silent (k x)) -> Awaits (Await o k).

(** The same, inside a call for the step [s]. *)
Inductive Starts {A : Type} (s : step) : prog A -> Prop :=
| starts_throw (e : error) : Starts s (Throw e)
| starts_sync (o : sop) (k : sres o -> prog A) :
    silent_sop o = true -> (forall x, Starts s (k x)) -> Starts s (Sync o k)
| starts_await (o : op) (k : res o -> prog A) :
    silent_op o = true -> (forall x, Body s (k x)) -> Starts s (Await o k).

Definition leaving {A : Type} (s : step) (a : A) : prog A :=
  bind (sync (Mark (Exit s))) (fun _ => Ret a).

Lemma body_of_silent {A : Type} (s : step) (b : prog A) :
  Uses Silent b -> Body s (bind b (leaving s)).
Proof.
  induction 1 as [a|e|o k Ho Hk IH|o k Ho Hk IH]; simpl.
  - apply body_exit.
  - apply body_throw.
  - apply body_sync; auto.
  - apply body_await; auto. exact (Ho Settled I).
Qed.

Lemma starts_of_awaits {A : Type} (s : step) (b : prog A) :
  Awaits b -> Starts s (bind b (leaving s)).
Proof.
  induction 1 as [e|o k Ho Hk IH|o k Ho Hk]; simpl.
  - apply starts_throw.
  - apply starts_sync; auto.
  - apply starts_await; auto. intros x. apply body_of_silent, Hk.
Qed.

(** What the tasks of a pool have still to report: the return of each
    task that has not returned. *)
Inductive Owes {A : Type} : pool A -> list event -> Prop :=
| owes_nil : Owes [] []
| owes_done (a : A) (pl : pool A) (ow : list event) :
    Owes pl ow -> Owes (Some (Ret a) :: pl) ow
| owes_body (s : step) (p : prog A) (pl : pool A) (ow : list event) :
    Body s p -> Owes pl ow -> Owes (Some p :: pl) (exited s :: ow)
| owes_stuck (s : step) (pl : pool A) (ow : list event) :
    Owes pl ow -> Owes (None :: pl) (exited s :: ow).

(** The calls of an array literal, each for its step. *)
Inductive Called {A : Type} : list (prog A) -> list step -> Prop :=
| called_nil : Called [] []
| called_cons (s : step) (p : prog A) (ps : list (prog A)) (ss : list step) :
    Starts s p -> Called ps ss ->
    Called (Sync (Mark (Enter s)) (fun _ => p) :: ps) (s :: ss).

Section Pools.

Variable E : Environment.

Lemma silent_performed (o : op) (s : St E) :
  silent_op o = true -> milestones (trace (perform o s)) = [].
Proof.
  intros Ho. destruct (perform_trace E o s) as [Ht _]. rewrite Ht.
  unfold milestones. simpl. now rewrite Ho.
Qed.

Lemma silent_performed_sync (o : sop) (s : St E) :
  silent_sop o = true -> milestones (trace (perform_sync o s)) = [].
Proof.
  intros Ho. rewrite perform_sync_trace. unfold milestones. simpl. now rewrite Ho.
Qed.

Lemma advance_body {A : Type} (s : step) (p : prog A) (st : St E) :
  Body s p ->
  (milestones (trace (advance p st)) = [] /\ Body s (result (advance p st)))
  \/ (milestones (trace (advance p st)) = [exited s]
      /\ exists a, result (advance p st) = Ret a).
Proof.
  intros H. revert st. induction H as [e|o k Ho Hk IH|o k Ho Hk IH|a]; intros st; simpl.
  - left. split; [reflexivity | constructor].
  - rewrite milestones_app, (silent_performed_sync o st Ho). simpl. apply IH.
  - left. split; [reflexivity | now constructor].
  - right. pose proof (perform_sync_trace E (Mark (Exit s)) st) as Ht.
    simpl in Ht. rewrite Ht. split; [reflexivity | now exists a].
Qed.

Lemma advance_starts {A : Type} (s : step) (p : prog A) (st : St E) :
  Starts s p ->
  milestones (trace (advance p st)) = [] /\ Body s (result (advance p st)).
Proof.
  intros H. revert st. induction H as [e|o k Ho Hk IH|o k Ho Hk]; intros st; simpl.
  - split; [reflexivity | constructor].
  - rewrite milestones_app, (silent_performed_sync o st Ho). simpl. apply IH.
  - split; [reflexivity | now constructor].
Qed.

Lemma resume_body {A : Type} (s : step) (p : prog A) (st : St E) :
  Body s p ->
  match result (resume p st) with
  | None => milestones (trace (resume p st)) = []
  | Some p' =>
      (milestones (trace (resume p st)) = [] /\ Body s p')
      \/ (milestones (trace (resume p st)) = [exited s] /\ exists a, p' = Ret a)
  end.
Proof.
  intros H. destruct H as [e|o k Ho Hk|o k Ho Hk|a]; simpl.
  - left. split; [reflexivity | constructor].
  - left. split; [reflexivity | now constructor].
  - pose proof (silent_performed o st Ho) as Hs.
    destruct (result (perform o st)) as [x|e|]; simpl.
    + rewrite milestones_app, Hs. simpl. apply advance_body, Hk.
    + left. split; [exact Hs | constructor].
    + exact Hs.
  - left. split; [reflexivity | apply body_exit].
Qed.

Lemma run_body {A : Type} (s : step) (p : prog A) (st : St E) :
  Body s p ->
  milestones (trace (run E p st))
  = match result (run E p st) with Ok _ => [exited s] | _ => [] end.
Proof.
  intros H. revert st. induction H as [e|o k Ho Hk IH|o k Ho Hk IH|a]; intros st; simpl.
  - reflexivity.
  - rewrite milestones_app, (silent_performed_sync o st Ho). simpl. apply IH.
  - pose proof (silent_performed o st Ho) as Hs.
    destruct (result (perform o st)) as [x|e|]; simpl; auto.
    rewrite milestones_app, Hs. simpl. apply IH.
  - pose proof (perform_sync_trace E (Mark (Exit s)) st) as Ht.
    simpl in Ht. rewrite Ht. reflexivity.
Qed.

End Pools.

Section PoolMilestones.

Variable E : Environment.

Lemma resume_at_owes {A : Type} (i : nat) (pl : pool A) (st : St E) (ow : list event) :
  Owes pl ow ->
  exists ow',
    Owes (result (resume_at i pl st)) ow'
    /\ Permutation ow (milestones (trace (resume_at i pl st)) ++ ow').
Proof.
  intros H. revert i.
  induction H as [|a pl ow H IH|s p pl ow Hp H IH|s pl ow H IH]; intros i.
  - exists []. destruct i; simpl; split; constructor.
  - destruct i as [|i]; simpl.
    + exists ow. split; [now constructor | reflexivity].
    + destruct (IH i) as [ow' [Ho Hperm]]. exists ow'. split; [now constructor | exact Hperm].
  - destruct i as [|i]; simpl.
    + pose proof (resume_body E s p st Hp) as Hr.
      destruct (result (resume p st)) as [p'|].
      * destruct Hr as [[Hm Hb]|[Hm [a Ha]]]; rewrite Hm; simpl.
        -- exists (exited s :: ow). split; [now constructor | reflexivity].
        -- subst p'. exists ow. split; [now constructor | reflexivity].
      * rewrite Hr. simpl. exists (exited s :: ow). split; [now constructor | reflexivity].
    + destruct (IH i) as [ow' [Ho Hperm]]. exists (exited s :: ow').
      split; [now constructor|]. now apply Permutation_cons_app.
  - destruct i as [|i]; simpl.
    + exists (exited s :: ow). split; [now constructor | reflexivity].
    + destruct (IH i) as [ow' [Ho Hperm]]. exists (exited s :: ow').
      split; [now constructor|]. now apply Permutation_cons_app.
Qed.

Lemma fulfilled_owes {A : Type} (pl : pool A) (ow : list event) (vs : list A) :
  Owes pl ow -> fulfilled pl = Some vs -> ow = [].
Proof.
  intros H. revert vs.
  induction H as [|a pl ow H IH|s p pl ow Hp H IH|s pl ow H IH]; intros vs; simpl.
  - reflexivity.
  - destruct (fulfilled pl) as [vs'|]; [|discriminate]. intros _. now apply (IH vs').
  - destruct Hp; discriminate.
  - discriminate.
Qed.

Lemma drain_owes {A : Type} (pl : pool A) (st : St E) (ow : list event) (vs : list A) :
  Owes pl ow -> result (drain pl st) = Ok vs -> milestones (trace (drain pl st)) = ow.
Proof.
  intros H. revert st vs.
  induction H as [|a pl ow H IH|s p pl ow Hp H IH|s pl ow H IH]; intros st vs; simpl.
  - reflexivity.
  - destruct (result (drain pl st)) as [vs'| |] eqn:Hd; try discriminate.
    intros _. now apply (IH st vs').
  - pose proof (run_body E s p st Hp) as Hm.
    destruct (result (run E p st)) as [a|e|]; simpl.
    + destruct (result (drain pl (final (run E p st)))) as [vs'| |] eqn:Hd; try discriminate.
      intros _. rewrite milestones_app, Hm. simpl. f_equal. now apply (IH _ vs').
    + discriminate.
    + destruct (result (drain pl (final (run E p st)))); discriminate.
  - destruct (result (drain pl st)); discriminate.
Qed.

Lemma settle_all_owes {A : Type} (turns : list nat) (pl : pool A) (st : St E)
  (ow : list event) (vs : list A) :
  Owes pl ow -> result (settle_all turns pl st) = Ok vs ->
  Permutation ow (milestones (trace (settle_all turns pl st))).
Proof.
  revert pl st ow. induction turns as [|i turns IH]; intros pl st ow H; simpl;
    destruct (rejected pl); try discriminate;
    destruct (fulfilled pl) as [vs'|] eqn:Hf;
    try (intros _; rewrite (fulfilled_owes pl ow vs' H Hf); reflexivity).
  - intros Hd. now rewrite (drain_owes pl st ow vs H Hd).
  - simpl. intros Hs.
    destruct (resume_at_owes (i mod List.length pl) pl st ow H) as [ow' [Ho Hperm]].
    rewrite milestones_app. rewrite Hperm.
    apply Permutation_app_head. now apply IH.
Qed.

Lemma advance_called {A : Type} (s : step) (p : prog A) (st : St E) :
  Starts s p ->
  milestones (trace (advance (Sync (Mark (Enter s)) (fun _ => p)) st)) = [entered s]
  /\ Body s (result (advance (Sync (Mark (Enter s)) (fun _ => p)) st)).
Proof.
  intros Hp. simpl. unfold perform_sync.
  destruct (sync_respond E (Mark (Enter s)) (world st)) as [x w]. simpl.
  destruct (advance_starts E s p (with_world w st) Hp) as [Hm Hb].
  unfold milestones in *. simpl. rewrite Hm. now split.
Qed.

Lemma start_all_called {A : Type} (ps : list (prog A)) (ss : list step) (st : St E) :
  Called ps ss ->
  milestones (trace (start_all ps st)) = List.map entered ss
  /\ Owes (result (start_all ps st)) (List.map exited ss).
Proof.
  intros H. revert st. induction H as [|s p ps ss Hp H IH]; intros st.
  - split; constructor.
  - destruct (advance_called s p st Hp) as [Hm Hb].
    destruct (IH (final (advance (Sync (Mark (Enter s)) (fun _ => p)) st))) as [Hms Ho].
    cbn [start_all result trace List.map]. split.
    + now rewrite milestones_app, Hm, Hms.
    + now constructor.
Qed.

Lemma advance_synchronous {A : Type} (p : prog A) (st : St E) :
  Forall (fun e => synchronous e = true) (trace (advance p st)).
Proof.
  revert st. induction p as [a|e|o k IH|o k IH]; intros st; simpl.
  - constructor.
  - constructor.
  - rewrite perform_sync_trace. constructor; [reflexivity | apply IH].
  - constructor.
Qed.

Lemma start_all_synchronous {A : Type} (ps : list (prog A)) (st : St E) :
  Forall (fun e => synchronous e = true) (trace (start_all ps st)).
Proof.
  revert st. induction ps as [|p ps IH]; intros st; simpl; [constructor|].
  apply Forall_app. split; [apply advance_synchronous | apply IH].
Qed.

(** A fulfilled [Promise.all] on calls for the steps [ss]: first the
    calls, which enter the steps in the order of the array and await
    nothing in between; then the steps return, in some order. *)
Lemma promiseAll_called {A : Type} (ps : list (prog A)) (ss : list step)
  (st : St E) (vs : list A) :
  Called ps ss -> result (promiseAll ps st) = Ok vs ->
  exists calls returns,
    trace (promiseAll ps st) = calls ++ returns
    /\ Forall (fun e => synchronous e = true) calls
    /\ milestones calls = List.map entered ss
    /\ Permutation (milestones returns) (List.map exited ss).
Proof.
  intros H. unfold promiseAll. simpl. intros Hok.
  destruct (start_all_called ps ss st H) as [Hms Ho].
  exists (trace (start_all ps st)),
    (trace (settle_all (loop st) (result (start_all ps st)) (final (start_all ps st)))).
  repeat split.
  - apply start_all_synchronous.
  - exact Hms.
  - symmetry. exact (settle_all_owes _ _ _ _ vs Ho Hok).
Qed.

End PoolMilestones.

(** ** The orchestrator, stage by stage *)

Ltac awaits :=
  unfold sleep, getRandomTimeout, await, sync; cbn [bind];
  repeat (apply awaits_sync; [reflexivity | intros]);
  apply awaits_await; [reflexivity | intros; walk by_computation].

Lemma awaits_enterUsername (page : Page) (username : string) :
  Awaits (enterUsername page username).
Proof. unfold enterUsername. awaits. Qed.

Lemma awaits_enterRejectAnnouncements (page : Page) :
  Awaits (enterRejectAnnouncements page).
Proof. unfold enterRejectAnnouncements. awaits. Qed.

Lemma awaits_enterPassword (page : Page) : Awaits (enterPassword page).
Proof.
  unfold enterPassword, generatePassword. cbn [or_default].
  change (default_length <? 0)%Z with false. cbv iota. awaits.
Qed.

Lemma awaits_waitForUserSolvedCaptcha (page : Page) :
  Awaits (waitForUserSolvedCaptcha page).
Proof. unfold waitForUserSolvedCaptcha. awaits. Qed.

Lemma awaits_enterEmail (browser : Browser) (page : Page) (email : string) :
  Awaits (enterEmail browser page email).
Proof. unfold enterEmail, clickOnEmailField. awaits. Qed.

Lemma field_steps_called (browser : Browser) (page : Page) (email username : string) :
  Called (field_steps browser page email username) fields.
Proof.
  unfold field_steps, fields.
  apply (called_cons Username (bind (enterUsername page username) (leaving Username))).
  { apply starts_of_awaits, awaits_enterUsername. }
  apply (called_cons Announcements
           (bind (enterRejectAnnouncements page) (leaving Announcements))).
  { apply starts_of_awaits, awaits_enterRejectAnnouncements. }
  apply (called_cons Password (bind (enterPassword page) (leaving Password))).
  { apply starts_of_awaits, awaits_enterPassword. }
  apply (called_cons Captcha (bind (waitForUserSolvedCaptcha page) (leaving Captcha))).
  { apply starts_of_awaits, awaits_waitForUserSolvedCaptcha. }
  apply (called_cons Email (bind (enterEmail browser page email) (leaving Email))).
  { apply starts_of_awaits, awaits_enterEmail. }
  apply called_nil.
Qed.

Lemma field_steps_silent_but_marks (browser : Browser) (page : Page) (email username : string) :
  Forall (Uses Discreet) (field_steps browser page email username).
Proof.
  assert (Hcall : forall (s : step) (b : prog unit), Uses Silent b -> Uses Discreet (call s b)).
  { intros s b Hb. unfold call, sync.
    repeat first [ apply uses_bind; [|intros]
                 | apply uses_sync; [reflexivity | intros]
                 | apply uses_ret ].
    apply (uses_weaken Silent Discreet); [apply silent_discreet | exact Hb]. }
  unfold field_steps. repeat apply Forall_cons; try apply Forall_nil; apply Hcall.
  - apply silent_enterUsername.
  - apply silent_enterRejectAnnouncements.
  - apply silent_enterPassword.
  - apply silent_waitForUserSolvedCaptcha.
  - apply silent_enterEmail.
Qed.

Section Stages.

Variable E : Environment.

Lemma mbind_result {A B : Type} (m : M E A) (f : A -> M E B) (s : St E) :
  result (mbind m f s)
  = match result (m s) with
    | Ok a => result (f a (final (m s)))
    | Err e => Err e
    | Hang => Hang
    end.
Proof. unfold mbind. now destruct (result (m s)). Qed.

Lemma mbind_trace {A B : Type} (m : M E A) (f : A -> M E B) (s : St E) :
  trace (mbind m f s)
  = trace (m s) ++ match result (m s) with
                   | Ok a => trace (f a (final (m s)))
                   | _ => []
                   end.
Proof. unfold mbind. destruct (result (m s)); simpl; now rewrite ?app_nil_r. Qed.

Lemma mbind_ok {A B : Type} (m : M E A) (f : A -> M E B) (s : St E) (b : B) :
  result (mbind m f s) = Ok b ->
  exists a,
    result (m s) = Ok a
    /\ result (f a (final (m s))) = Ok b
    /\ trace (mbind m f s) = trace (m s) ++ trace (f a (final (m s))).
Proof.
  rewrite mbind_result, mbind_trace.
  destruct (result (m s)) as [a| |]; try discriminate.
  intros H. now exists a.
Qed.

Lemma run_sync (o : sop) (s : St E) :
  result (run E (sync o) s) = Ok (result (perform_sync o s))
  /\ trace (run E (sync o) s) = [Did o].
Proof.
  unfold sync. simpl. rewrite perform_sync_trace. now split.
Qed.

Lemma run_await (o : op) (s : St E) :
  trace (run E (await o) s) = [Awaited o (status_of (result (run E (await o) s)))].
Proof.
  unfold await. simpl. destruct (perform_trace E o s) as [Ht _].
  destruct (result (perform o s)); simpl; rewrite Ht; reflexivity.
Qed.

Lemma run_await_ok (o : op) (s : St E) (x : res o) :
  result (run E (await o) s) = Ok x -> trace (run E (await o) s) = [Awaited o Settled].
Proof. intros H. now rewrite run_await, H. Qed.

Lemma startBrowser_trace (s : St E) :
  milestones (trace (run E startBrowser s))
  = [Awaited Launch (status_of (result (run E (await Launch) s)))]
  /\ (forall session, result (run E startBrowser s) = Ok session ->
      result (run E (await Launch) s) = Ok (fst session)).
Proof.
  unfold startBrowser. rewrite run_bind, mbind_trace, mbind_result, milestones_app.
  rewrite run_await. split.
  - destruct (result (run E (await Launch) s)) as [browser| |]; try reflexivity.
    change (milestones [Awaited Launch (status_of (Ok browser))]) with [Awaited Launch Settled].
    change (status_of (Ok browser)) with Settled.
    rewrite milestones_silent; [reflexivity|].
    apply (run_uses E Silent). walk by_computation.
  - intros session. destruct (result (run E (await Launch) s)) as [browser| |];
      try discriminate.
    rewrite run_bind, mbind_result.
    destruct (result (run E (await (NewPage browser)) (final (run E (await Launch) s))))
      as [page| |]; try discriminate.
    rewrite run_bind, mbind_result.
    destruct (result (run E (await (SetViewport page 800 600))
                        (final (run E (await (NewPage browser))
                                  (final (run E (await Launch) s))))));
      try discriminate.
    simpl. intros H. now inversion H.
Qed.

Lemma called_ok {A : Type} (s : step) (body : M E A) (st : St E) (a : A) :
  Emits E Silent body ->
  result (called E s body st) = Ok a ->
  milestones (trace (called E s body st)) = [entered s; exited s].
Proof.
  intros Hb Hok. unfold called in *.
  apply mbind_ok in Hok. destruct Hok as [x [H1 [Hok Ht1]]]. rewrite Ht1.
  apply mbind_ok in Hok. destruct Hok as [a' [H2 [Hok Ht2]]]. rewrite Ht2.
  apply mbind_ok in Hok. destruct Hok as [y [H3 [Hok Ht3]]]. rewrite Ht3.
  rewrite !milestones_app.
  rewrite (proj2 (run_sync (Mark (Enter s)) st)).
  rewrite (milestones_silent _ (Hb _)).
  match goal with
  | |- context [trace (run E (sync (Mark (Exit s))) ?st')] =>
      rewrite (proj2 (run_sync (Mark (Exit s)) st'))
  end.
  reflexivity.
Qed.

Lemma called_discreet {A : Type} (s : step) (body : M E A) :
  Emits E Discreet body -> Emits E Discreet (called E s body).
Proof.
  intros Hb. unfold called.
  apply emits_bind; [apply emits_run; unfold sync; constructor;
                     [reflexivity | intros; constructor]|].
  intros _. apply emits_bind; [exact Hb|].
  intros a. apply emits_bind; [|intros; apply emits_ret].
  apply emits_run. unfold sync. constructor; [reflexivity | intros; constructor].
Qed.

Lemma upload_tasks_silent (page : Page) : Forall (Uses Silent) (upload_tasks page).
Proof.
  unfold upload_tasks. repeat apply Forall_cons; try apply Forall_nil;
    walk by_computation.
Qed.

Lemma silent_uploadAcatar (page : Page) : Emits E Silent (uploadAcatar E page).
Proof.
  unfold uploadAcatar.
  apply emits_bind; [apply emits_promiseAll, upload_tasks_silent|]. intros results.
  apply emits_bind; [apply emits_run, silent_sleep|]. intros _.
  apply emits_bind.
  { destruct results as [|[chooser|] rest];
      try apply emits_throw; apply emits_run; walk by_computation. }
  intros _. apply emits_bind; [apply emits_run, silent_sleep|]. intros _.
  apply emits_run, silent_submitAvatar.
Qed.

Lemma silent_changeUserAvatar (page : Page) : Emits E Silent (changeUserAvatar E page).
Proof.
  unfold changeUserAvatar.
  apply emits_bind; [apply emits_run, silent_openAccountNavigationSidebar|]. intros _.
  apply emits_bind; [apply emits_run, silent_openSettingsPage|]. intros _.
  apply emits_bind; [apply emits_run, silent_showUploadButton|]. intros _.
  apply silent_uploadAcatar.
Qed.

End Stages.

Section Orchestrator.

Variable E : Environment.

Lemma derive_username_trace (email : string) (s : St E) :
  trace (run E (derive_username email) s) = [].
Proof.
  unfold derive_username. now destruct (nth_error (JsString.split "@" email) 0).
Qed.

(** A fulfilled run of the orchestrator, in four parts. *)
Lemma createGithubAccount_stages (email : string) (s : St E) :
  result (createGithubAccount E email s) = Ok tt ->
  exists before calls returns rest browser,
    trace (createGithubAccount E email s) = before ++ calls ++ returns ++ rest
    /\ milestones before = [Did (ConsoleLog (LogEmail email)); Awaited Launch Settled]
    /\ Forall (fun e => synchronous e = true) calls
    /\ milestones calls = List.map entered fields
    /\ Permutation (milestones returns) (List.map exited fields)
    /\ milestones rest
       = [entered Configuration; exited Configuration;
          entered Avatar; exited Avatar; Awaited (Close browser) Settled].
Proof.
  intros Hok. unfold createGithubAccount in *.
  apply mbind_ok in Hok. destruct Hok as [x0 [H0 [Hok T0]]]. rewrite T0. clear T0.
  set (s0 := final (run E (sync (ConsoleLog (LogEmail email))) s)) in *.
  apply mbind_ok in Hok. destruct Hok as [session [H1 [Hok T1]]]. rewrite T1. clear T1.
  set (s1 := final (run E startBrowser s0)) in *. cbv beta zeta in Hok |- *.
  apply mbind_ok in Hok. destruct Hok as [x2 [H2 [Hok T2]]]. rewrite T2. clear T2.
  set (s2 := final (run E (await (Goto (snd session) "https://github.com/signup")) s1)) in *.
  apply mbind_ok in Hok. destruct Hok as [username [H3 [Hok T3]]]. rewrite T3. clear T3.
  set (s3 := final (run E (derive_username email) s2)) in *.
  apply mbind_ok in Hok. destruct Hok as [vs [H4 [Hok T4]]]. rewrite T4. clear T4.
  set (s4 := final (promiseAll (field_steps (fst session) (snd session) email username) s3)) in *.
  apply mbind_ok in Hok. destruct Hok as [x5 [H5 [Hok T5]]]. rewrite T5. clear T5.
  set (s5 := final (called E Configuration
                      (run E (setAccountConfiguration (snd session))) s4)) in *.
  apply mbind_ok in Hok. destruct Hok as [x6 [H6 [Hok T6]]]. rewrite T6. clear T6.
  set (s6 := final (called E Avatar (changeUserAvatar E (snd session)) s5)) in *.
  destruct (promiseAll_called E _ fields s3 vs
              (field_steps_called (fst session) (snd session) email username) H4)
    as [calls [returns [Hsplit [Hsync [Hcalls Hreturns]]]]].
  rewrite Hsplit.
  exists (trace (run E (sync (ConsoleLog (LogEmail email))) s)
          ++ trace (run E startBrowser s0)
          ++ trace (run E (await (Goto (snd session) "https://github.com/signup")) s1)
          ++ trace (run E (derive_username email) s2)),
    calls, returns,
    (trace (called E Configuration (run E (setAccountConfiguration (snd session))) s4)
     ++ trace (called E Avatar (changeUserAvatar E (snd session)) s5)
     ++ trace (run E (await (Close (fst session)) : prog unit) s6)),
    (fst session).
  split; [now rewrite <- !app_assoc|].
  split.
  { rewrite !milestones_app.
    rewrite (proj2 (run_sync E (ConsoleLog (LogEmail email)) s)).
    destruct (startBrowser_trace E s0) as [Hstart Hlaunch].
    rewrite Hstart, (Hlaunch session H1).
    rewrite (milestones_silent (trace (run E (await (Goto _ _)) s1))).
    2:{ apply (run_uses E Silent). walk by_computation. }
    now rewrite derive_username_trace. }
  split; [exact Hsync|]. split; [exact Hcalls|]. split; [exact Hreturns|].
  rewrite !milestones_app.
  rewrite (called_ok E Configuration _ s4 x5
             (emits_run E Silent _ (silent_setAccountConfiguration (snd session))) H5).
  rewrite (called_ok E Avatar _ s5 x6 (silent_changeUserAvatar E (snd session)) H6).
  assert (Hclose : trace (run E (await (Close (fst session)) : prog unit) s6)
                   = [Awaited (Close (fst session)) Settled])
    by exact (run_await_ok E (Close (fst session)) s6 tt Hok).
  rewrite Hclose. reflexivity.
Qed.

(** The observation points of a fulfilled run of the orchestrator. *)
Lemma createGithubAccount_milestones (email : string) (s : St E) :
  result (createGithubAccount E email s) = Ok tt ->
  exists exits browser,
    Permutation exits (List.map exited fields)
    /\ milestones (trace (createGithubAccount E email s))
       = [Did (ConsoleLog (LogEmail email)); Awaited Launch Settled]
         ++ List.map entered fields ++ exits
         ++ [entered Configuration; exited Configuration;
             entered Avatar; exited Avatar; Awaited (Close browser) Settled].
Proof.
  intros Hok.
  destruct (createGithubAccount_stages email s Hok)
    as [before [calls [returns [rest [browser [Ht [Hb [_ [Hc [Hr Ha]]]]]]]]]].
  exists (milestones returns), browser. split; [exact Hr|].
  now rewrite Ht, !milestones_app, Hb, Hc, Ha.
Qed.

End Orchestrator.

(** ** The order of the steps of a fulfilled run *)

(** C3.  Every fulfilled run of the orchestrator consists of four parts.
    Before the field steps only the email is printed and the browser
    launched.  Then the five field steps are called one after the other, in
    the order of the array handed to [Promise.all]: all five are entered and
    nothing is awaited in between.  Then the five steps proceed and each
    returns once, in an order that depends on the page.  Only then is
    account configuration entered; it returns before the avatar step is
    entered, and the browser is closed after the avatar step returned, as
    the last of these events.  No step is entered or left at another
    time. *)
Theorem fulfilled_run_orders_the_steps (E : Environment) (email : string) (s : St E)
  (Hok : result (createGithubAccount E email s) = Ok tt) :
  exists before calls returns rest browser,
    trace (createGithubAccount E email s) = before ++ calls ++ returns ++ rest
    /\ milestones before = [Did (ConsoleLog (LogEmail email)); Awaited Launch Settled]
    /\ Forall (fun e => synchronous e = true) calls
    /\ milestones calls
       = [entered Username; entered Announcements; entered Password;
          entered Captcha; entered Email]
    /\ Permutation (milestones returns)
         [exited Username; exited Announcements; exited Password;
          exited Captcha; exited Email]
    /\ milestones rest
       = [entered Configuration; exited Configuration;
          entered Avatar; exited Avatar; Awaited (Close browser) Settled].
Proof. exact (createGithubAccount_stages E email s Hok). Qed.

Lemma fulfilled_run_orders_the_steps_witness :
  result (createGithubAccount (page_env happy_page) "jane.doe+test@example.com"
            (boot (page_env happy_page) 0 some_turns)) = Ok tt
  /\ exists before calls returns rest browser,
       trace (createGithubAccount (page_env happy_page) "jane.doe+test@example.com"
                (boot (page_env happy_page) 0 some_turns))
       = before ++ calls ++ returns ++ rest
       /\ milestones before
          = [Did (ConsoleLog (LogEmail "jane.doe+test@example.com"));
             Awaited Launch Settled]
       /\ Forall (fun e => synchronous e = true) calls
       /\ milestones calls
          = [entered Username; entered Announcements; entered Password;
             entered Captcha; entered Email]
       /\ Permutation (milestones returns)
            [exited Username; exited Announcements; exited Password;
             exited Captcha; exited Email]
       /\ milestones rest
          = [entered Configuration; exited Configuration;
             entered Avatar; exited Avatar; Awaited (Close browser) Settled].
Proof.
  split; [vm_compute; reflexivity|].
  apply (fulfilled_run_orders_the_steps (page_env happy_page)
           "jane.doe+test@example.com" (boot (page_env happy_page) 0 some_turns)).
  vm_compute. reflexivity.
Defined.

(** ** Counting sessions along a trace *)

Lemma count_app (p : event -> bool) (t u : list event) :
  count p (t ++ u) = count p t + count p u.
Proof. unfold count. now rewrite filter_app, length_app. Qed.

Lemma printed_app (t u : list event) : printed (t ++ u) = printed t ++ printed u.
Proof.
  induction t as [|e t IH]; simpl; [reflexivity|].
  destruct e as [[| |[]|]|]; simpl; now rewrite IH.
Qed.

Lemma announced_app (t u : list event) : announced (t ++ u) = announced t ++ announced u.
Proof.
  induction t as [|e t IH]; simpl; [reflexivity|].
  destruct e as [[| |[]|]|]; simpl; now rewrite IH.
Qed.

Lemma count_permutation (p : event -> bool) (t u : list event) :
  Permutation t u -> count p t = count p u.
Proof.
  unfold count. induction 1 as [|e t u H IH|e e' t|t u v H1 IH1 H2 IH2]; simpl.
  - reflexivity.
  - destruct (p e); simpl; now rewrite IH.
  - destruct (p e), (p e'); reflexivity.
  - now rewrite IH1.
Qed.

Lemma count_firstn (p : event -> bool) (n : nat) (t : list event) :
  count p (firstn n t) <= count p t.
Proof.
  rewrite <- (firstn_skipn n t) at 2. rewrite count_app. lia.
Qed.

(** What is counted and read of a trace is counted and read of its
    milestones. *)
Lemma milestones_keep (t : list event) :
  count is_launch t = count is_launch (milestones t)
  /\ count is_close t = count is_close (milestones t)
  /\ announced t = announced (milestones t)
  /\ printed t = printed (milestones t).
Proof.
  unfold count, milestones. induction t as [|e t [H1 [H2 [H3 H4]]]]; simpl; [auto|].
  destruct e as [[| |[]|]|[] []]; simpl; rewrite ?H1, ?H2, ?H3, ?H4; auto.
Qed.

(** As many browsers were closed or runs given up as browsers were
    launched. *)
Definition balanced (t : list event) : Prop :=
  count is_launch t <= count is_close t + List.length (printed t).

(** At every point of the trace at most one browser more was launched
    than browsers were closed or runs given up. *)
Definition bounded (t : list event) : Prop :=
  forall n,
    count is_launch (firstn n t)
    <= 1 + count is_close (firstn n t) + List.length (printed (firstn n t)).

Lemma bounded_of_one_launch (t : list event) : count is_launch t <= 1 -> bounded t.
Proof.
  intros H n. pose proof (count_firstn is_launch n t). lia.
Qed.

Lemma balanced_app (t u : list event) : balanced t -> balanced u -> balanced (t ++ u).
Proof.
  unfold balanced. intros Ht Hu.
  rewrite !count_app, printed_app, length_app. lia.
Qed.

Lemma bounded_app (t u : list event) :
  balanced t -> bounded t -> bounded u -> bounded (t ++ u).
Proof.
  unfold balanced. intros Hbal Ht Hu n. rewrite firstn_app.
  rewrite !count_app, printed_app, length_app.
  destruct (Nat.le_gt_cases n (List.length t)) as [Hn|Hn].
  - replace (n - List.length t) with 0 by lia. simpl.
    specialize (Ht n). unfold count at 2 4. simpl. lia.
  - rewrite (firstn_all2 t) by lia. specialize (Hu (n - List.length t)). lia.
Qed.

Section Batch.

Variable E : Environment.

Lemma emits_weaken {A : Type} (P Q : event -> Prop) (m : M E A) :
  (forall e, P e -> Q e) -> Emits E P m -> Emits E Q m.
Proof.
  intros HPQ Hm s. apply Forall_impl with (P := P); [exact HPQ | apply Hm].
Qed.

(** After the browser was started, the orchestrator launches no other
    and prints nothing. *)
Lemma createGithubAccount_rest_discreet (email : string) (session : Browser * Page) :
  Emits E (fun e => is_launch e = false /\ announced [e] = [] /\ printed [e] = [])
    (mbind (run E (await (Goto (snd session) "https://github.com/signup")))
       (fun _ =>
          mbind (run E (derive_username email))
            (fun username =>
               mbind (promiseAll (field_steps (fst session) (snd session) email username))
                 (fun _ =>
                    mbind (called E Configuration
                             (run E (setAccountConfiguration (snd session))))
                      (fun _ =>
                         mbind (called E Avatar (changeUserAvatar E (snd session)))
                           (fun _ => run E (await (Close (fst session)) : prog unit))))))).
Proof.
  assert (Hd : forall e, Discreet e ->
                 is_launch e = false /\ announced [e] = [] /\ printed [e] = []).
  { intros [[| |[]|]|[] how]; unfold Discreet; simpl; try discriminate; auto. }
  apply emits_bind.
  { apply emits_run. walk ltac:(intros; apply Hd; reflexivity). }
  intros _. apply emits_bind.
  { apply emits_run. unfold derive_username.
    destruct (nth_error (JsString.split "@" email) 0); constructor. }
  intros username. apply emits_bind.
  { apply (emits_weaken Discreet); [exact Hd|].
    apply emits_promiseAll, field_steps_silent_but_marks. }
  intros _. apply emits_bind.
  { apply (emits_weaken Discreet); [exact Hd|]. apply called_discreet.
    apply (emits_weaken Silent); [apply silent_discreet|].
    apply emits_run, silent_setAccountConfiguration. }
  intros _. apply emits_bind.
  { apply (emits_weaken Discreet); [exact Hd|]. apply called_discreet.
    apply (emits_weaken Silent); [apply silent_discreet|].
    apply silent_changeUserAvatar. }
  intros _. apply emits_run. unfold await.
  constructor; [intros how _; now repeat split | intros; constructor].
Qed.

Lemma quiet_counts (t : list event) :
  Forall (fun e => is_launch e = false /\ announced [e] = [] /\ printed [e] = []) t ->
  count is_launch t = 0 /\ announced t = [] /\ printed t = [].
Proof.
  induction 1 as [|e t [H1 [H2 H3]] Ht [IH1 [IH2 IH3]]]; [now repeat split|].
  change (e :: t) with ([e] ++ t).
  rewrite count_app, announced_app, printed_app, H2, H3, IH1, IH2, IH3.
  unfold count. simpl. rewrite H1. now repeat split.
Qed.

(** One run of the orchestrator: it prints the email once and no error,
    launches at most one browser, and has closed a browser if it is
    fulfilled. *)
Lemma createGithubAccount_counts (email : string) (s : St E) :
  announced (trace (createGithubAccount E email s)) = [email]
  /\ printed (trace (createGithubAccount E email s)) = []
  /\ count is_launch (trace (createGithubAccount E email s)) <= 1
  /\ (result (createGithubAccount E email s) = Ok tt ->
      count is_launch (trace (createGithubAccount E email s)) = 1
      /\ count is_close (trace (createGithubAccount E email s)) = 1).
Proof.
  assert (Hrun : announced (trace (createGithubAccount E email s)) = [email]
                 /\ printed (trace (createGithubAccount E email s)) = []
                 /\ count is_launch (trace (createGithubAccount E email s)) <= 1).
  { unfold createGithubAccount. rewrite mbind_trace.
    rewrite (proj2 (run_sync E (ConsoleLog (LogEmail email)) s)).
    rewrite (proj1 (run_sync E (ConsoleLog (LogEmail email)) s)).
    set (s0 := final (run E (sync (ConsoleLog (LogEmail email))) s)).
    rewrite mbind_trace.
    destruct (milestones_keep (trace (run E startBrowser s0))) as [K1 [_ [K3 K4]]].
    rewrite (proj1 (startBrowser_trace E s0)) in K1, K3, K4.
    assert (Hrest : forall t,
               Forall (fun e => is_launch e = false /\ announced [e] = [] /\ printed [e] = []) t ->
               announced ([Did (ConsoleLog (LogEmail email))]
                          ++ trace (run E startBrowser s0) ++ t) = [email]
               /\ printed ([Did (ConsoleLog (LogEmail email))]
                           ++ trace (run E startBrowser s0) ++ t) = []
               /\ count is_launch ([Did (ConsoleLog (LogEmail email))]
                                   ++ trace (run E startBrowser s0) ++ t) <= 1).
    { intros t Ht. destruct (quiet_counts t Ht) as [Q1 [Q2 Q3]].
      rewrite !announced_app, !printed_app, !count_app, K1, K3, K4, Q1, Q2, Q3.
      destruct (status_of (result (run E (await Launch) s0))); simpl;
        repeat split; unfold count; simpl; lia. }
    destruct (result (run E startBrowser s0)) as [session| |].
    - apply Hrest. cbv beta zeta. apply createGithubAccount_rest_discreet.
    - apply Hrest. constructor.
    - apply Hrest. constructor. }
  destruct Hrun as [H1 [H2 H3]].
  split; [exact H1|]. split; [exact H2|]. split; [exact H3|].
  intros Hok. destruct (createGithubAccount_milestones E email s Hok)
    as [exits [browser [Hperm Hms]]].
  rewrite (proj1 (milestones_keep _)), (proj1 (proj2 (milestones_keep _))), Hms.
  rewrite !count_app, !(count_permutation _ _ _ Hperm).
  split; reflexivity.
Qed.

End Batch.

(** ** The batch driver *)

Section Driver.

Variable E : Environment.

(** A part of the batch that announces the emails [emails]: it ends in
    no error, keeps the sessions bounded, and, when it returns, has
    announced exactly [emails] and left the sessions balanced; when it does
    not return it has announced the first of them. *)
Definition Good (m : M E unit) (emails : list string) : Prop :=
  forall s,
    (forall e, result (m s) <> Err e)
    /\ bounded (trace (m s))
    /\ (result (m s) = Ok tt ->
        balanced (trace (m s)) /\ announced (trace (m s)) = emails)
    /\ exists rest, emails = announced (trace (m s)) ++ rest.

Lemma good_ret : Good (ret tt) [].
Proof.
  intros s. simpl. repeat split; try discriminate.
  - intros n. destruct n; simpl; unfold count; simpl; lia.
  - unfold balanced, count. simpl. lia.
  - now exists [].
Qed.

Lemma good_bind (m n : M E unit) (a1 a2 : list string) :
  Good m a1 -> Good n a2 -> Good (mbind m (fun _ => n)) (a1 ++ a2).
Proof.
  intros Hm Hn s. destruct (Hm s) as [M1 [M2 [M3 [rest1 M4]]]].
  rewrite mbind_result, mbind_trace.
  destruct (result (m s)) as [[]| |] eqn:Hr.
  - destruct (Hn (final (m s))) as [N1 [N2 [N3 [rest2 N4]]]].
    destruct (M3 eq_refl) as [Mb Ma].
    repeat split.
    + exact N1.
    + now apply bounded_app.
    + apply balanced_app; [exact Mb | now apply N3].
    + rewrite announced_app, Ma. f_equal. now apply N3.
    + exists rest2. rewrite announced_app, Ma, N4. now rewrite app_assoc.
  - now destruct (M1 e).
  - rewrite app_nil_r. repeat split; try discriminate.
    + exact M2.
    + exists (rest1 ++ a2). rewrite M4. now rewrite app_assoc.
Qed.

Lemma good_for_each {A : Type} (body : A -> M E unit) (announces : A -> list string)
  (items : list A) :
  (forall item, Good (body item) (announces item)) ->
  Good (for_each E body items) (List.concat (List.map announces items)).
Proof.
  intros Hbody. induction items as [|item rest IH]; simpl.
  - apply good_ret.
  - apply good_bind; [apply Hbody | exact IH].
Qed.

Lemma attempt_caught (email : string) (s : St E) (e : error) :
  String.eqb email "" = false ->
  result (createGithubAccount E email s) = Err e ->
  result (attempt E email s) = Ok tt
  /\ trace (attempt E email s)
     = trace (createGithubAccount E email s) ++ [Did (ConsoleLog (LogError e))].
Proof.
  intros Hne Herr. unfold attempt, try_catch. rewrite Hne, Herr.
  destruct (run_sync E (ConsoleLog (LogError e)) (final (createGithubAccount E email s)))
    as [Hr Ht].
  unfold after. cbn [result trace]. split.
  - etransitivity; [exact Hr|].
    generalize (result (perform_sync (ConsoleLog (LogError e))
                          (final (createGithubAccount E email s)))).
    intros u. now destruct u.
  - f_equal. exact Ht.
Qed.

Lemma good_attempt (email : string) :
  Good (attempt E email) (if String.eqb email "" then [] else [email]).
Proof.
  destruct (String.eqb email "") eqn:Hne.
  - unfold attempt. rewrite Hne. apply good_ret.
  - intros s.
    destruct (createGithubAccount_counts E email s) as [Ha [Hp [Hl Hc]]].
    destruct (result (createGithubAccount E email s)) as [[]|e|] eqn:Hr.
    + assert (Heq : attempt E email s = createGithubAccount E email s).
      { unfold attempt, try_catch. now rewrite Hne, Hr. }
      rewrite Heq, Hr. repeat split; try discriminate.
      * now apply bounded_of_one_launch.
      * unfold balanced. destruct (Hc eq_refl). lia.
      * exact Ha.
      * exists []. now rewrite Ha.
    + destruct (attempt_caught email s e Hne Hr) as [Hres Htr].
      rewrite Hres, Htr.
      assert (Hl' : count is_launch
                      (trace (createGithubAccount E email s)
                       ++ [Did (ConsoleLog (LogError e))]) <= 1).
      { rewrite count_app.
        change (count is_launch [Did (ConsoleLog (LogError e))]) with 0. lia. }
      repeat split; try discriminate.
      * now apply bounded_of_one_launch.
      * unfold balanced. rewrite printed_app, length_app.
        change (List.length (printed [Did (ConsoleLog (LogError e))])) with 1. lia.
      * rewrite announced_app, Ha. reflexivity.
      * exists []. rewrite announced_app, Ha. reflexivity.
    + assert (Heq : attempt E email s = createGithubAccount E email s).
      { unfold attempt, try_catch. now rewrite Hne, Hr. }
      rewrite Heq, Hr. repeat split; try discriminate.
      * now apply bounded_of_one_launch.
      * exists []. now rewrite Ha.
Qed.

Lemma worklist_announced (lines : list string) :
  List.concat
    (List.map
       (fun line =>
          List.concat
            (List.map (fun email => if String.eqb email "" then [] else [email])
               (emails_of line)))
       lines)
  = worklist lines.
Proof.
  unfold worklist. induction lines as [|line rest IH]; simpl; [reflexivity|].
  rewrite filter_app, IH. f_equal.
  induction (emails_of line) as [|email emails IHe]; simpl; [reflexivity|].
  rewrite IHe. now destruct (String.eqb email "").
Qed.

Example worklist_skips_empty_entries :
  worklist ["a@x.com, ,b@y.com,"] = ["a@x.com"; "b@y.com"].
Proof. reflexivity. Qed.

Lemma good_main (lines : list string) : Good (main E lines) (worklist lines).
Proof.
  rewrite <- worklist_announced. unfold main.
  apply good_for_each. intros line.
  apply good_for_each. intros email. apply good_attempt.
Qed.

End Driver.

(** ** Sessions during a batch *)



(** ** Errors during a batch *)

(** C7.  The batch driver never ends in an error, whatever the runs of
    the orchestrator do.  An error of the run for an email is caught and
    printed, and the driver goes on with the emails that follow, in their
    order.  When the driver returns it has run the orchestrator for exactly
    the emails of the worklist, in order; when a run hangs, for the first of
    them. *)
Theorem batch_driver_catches_and_continues
  (E : Environment) (lines : list string) (s : St E) :
  (forall e, result (main E lines s) <> Err e)
  /\ (result (main E lines s) = Ok tt ->
      announced (trace (main E lines s)) = worklist lines)
  /\ (exists rest, worklist lines = announced (trace (main E lines s)) ++ rest)
  /\ (forall email emails s' e,
         String.eqb email "" = false ->
         result (createGithubAccount E email s') = Err e ->
         result (for_each E (attempt E) (email :: emails) s')
         = result (for_each E (attempt E) emails (final (attempt E email s')))
         /\ trace (for_each E (attempt E) (email :: emails) s')
            = trace (createGithubAccount E email s')
              ++ [Did (ConsoleLog (LogError e))]
              ++ trace (for_each E (attempt E) emails (final (attempt E email s')))).
Proof.
  destruct (good_main E lines s) as [H1 [_ [H3 H4]]].
  split; [exact H1|].
  split; [intros Hok; now apply H3|].
  split; [exact H4|].
  intros email emails s' e Hne Herr.
  destruct (attempt_caught E email s' e Hne Herr) as [Hres Htr].
  simpl. rewrite mbind_result, mbind_trace, Hres, Htr.
  split; [reflexivity | now rewrite <- app_assoc].
Qed.

(** * Further properties of the script *)

(** ** The random delay *)



(** ** The password generator on an empty alphabet *)




(** ** Starting the browser *)

(** Asks the environment for its answer to the next operation of a run
    and tells the cases of the answer apart. *)
Ltac answer :=
  unfold perform;
  match goal with
  | |- context [respond ?E ?o ?w] =>
      let ms := fresh "ms" in
      let x := fresh "x" in
      let what := fresh "what" in
      let w' := fresh "w" in
      destruct (respond E o w) as [[ms x|what|] w'] eqn:?; simpl
  end.

(** X3.  [startBrowser] closes nothing.  When it is fulfilled it has
    launched one browser, opened one page in it and set the viewport of that
    page to 800 by 600, in this order and nothing else, and it returns this
    browser and this page.  When the page cannot be opened or sized, the
    browser that was launched stays open. *)
Theorem startBrowser_sessions (E : Environment) (s : St E) :
  count is_close (trace (run E startBrowser s)) = 0
  /\ (forall b p,
         result (run E startBrowser s) = Ok (b, p) ->
         trace (run E startBrowser s)
         = [Awaited Launch Settled; Awaited (NewPage b) Settled;
            Awaited (SetViewport p 800 600) Settled])
  /\ (In (Awaited Launch Settled) (trace (run E startBrowser s)) ->
      open_sessions (trace (run E startBrowser s)) = 1).
Proof.
  unfold startBrowser, await. cbn [bind]. simpl.
  repeat answer; unfold open_sessions, count; simpl;
    (split; [reflexivity|]); (split; [intros b p H; inversion H; subst; reflexivity|]);
    intros Hin; try reflexivity;
    repeat (destruct Hin as [Hin|Hin]; try discriminate); contradiction.
Qed.

(** ** The visible-button clicker on any page *)

(** The handles whose computed visibility was asked for, in order. *)
Fixpoint evaluated (t : list event) : list Handle :=
  match t with
  | [] => []
  | Awaited (ComputedVisibility h) _ :: rest => h :: evaluated rest
  | _ :: rest => evaluated rest
  end.

(** X4.  On every page, also one whose answers change or fail, the
    clicker asks for the visibility of the candidates in the order of the
    list, without skipping any, and stops asking at some point; it clicks at
    most once, on a candidate of the list, and that click is its last
    action; it raises no error of its own, and no bound of its own runs
    out: an error can only be a rejection by the page. *)
Theorem clickVisibleContinue_on_any_page
  (E : Environment) (buttons : list Handle) (s : St E) :
  (exists rest, buttons = evaluated (trace (run E (clickVisibleContinue buttons) s)) ++ rest)
  /\ (clicks (trace (run E (clickVisibleContinue buttons) s)) = []
      \/ exists before h how,
           trace (run E (clickVisibleContinue buttons) s)
           = before ++ [Awaited (Click h) how]
           /\ In h buttons /\ clicks before = [])
  /\ (forall e, result (run E (clickVisibleContinue buttons) s) = Err e ->
      exists what, e = PageError what).
Proof.
  revert s. induction buttons as [|button rest IH]; intros s.
  - simpl. split; [now exists []|]. split; [now left | discriminate].
  - simpl. answer.
    + destruct (negb (String.eqb x "hidden")); simpl.
      * answer; (split; [now exists rest|]);
          (split; [right; exists [Awaited (ComputedVisibility button) Settled], button;
                   eexists; split; [reflexivity | split; [now left | reflexivity]]|]);
          intros e He; inversion He; eauto.
      * destruct (IH (with_world w s)) as [[rest' Hp] [Hc He]].
        split; [exists rest'; now rewrite Hp at 1|].
        split; [|exact He].
        destruct Hc as [Hc|[before [h [how [Ht [Hin Hb]]]]]]; [now left|].
        right. exists (Awaited (ComputedVisibility button) Settled :: before), h, how.
        rewrite Ht. split; [reflexivity | split; [now right | exact Hb]].
    + split; [now exists rest|]. split; [now left|].
      intros e He. inversion He. eauto.
    + split; [now exists rest|]. split; [now left | discriminate].
Qed.

(** ** When the orchestrator closes the browser *)




Section Closing.

Variable E : Environment.





End Closing.


(** ** The order of the steps in every run *)

(** The trace [t] has a first part of events of [N] only, and goes on
    after it only if [G] holds of this first part. *)
Definition Guarded (N : event -> Prop) (G : list event -> Prop) (t : list event) : Prop :=
  exists pre rest, t = pre ++ rest /\ Forall N pre /\ (rest = [] \/ G pre).

Lemma prefix_without (e : event) (pre rest before later : list event) :
  pre ++ rest = before ++ e :: later -> ~ In e pre ->
  exists more, before = pre ++ more /\ rest <> [].
Proof.
  revert before. induction pre as [|x pre IH]; intros before Heq Hnot; simpl in *.
  - exists before. split; [reflexivity|]. intros ->. now destruct before.
  - destruct before as [|y before]; simpl in *.
    + inversion Heq; subst. exfalso. apply Hnot. now left.
    + inversion Heq; subst. destruct (IH before H1) as [more [Hb Hr]].
      * intros Hin. apply Hnot. now right.
      * exists more. split; [now rewrite Hb | exact Hr].
Qed.

Lemma guarded_before (N : event -> Prop) (G : list event -> Prop)
  (t before later : list event) (e : event) :
  Guarded N G t -> (forall pre more, G pre -> G (pre ++ more)) ->
  t = before ++ e :: later -> ~ N e -> G before.
Proof.
  intros [pre [rest [Ht [Hpre Hg]]]] Hmono Heq HN.
  rewrite Ht in Heq.
  destruct (prefix_without e pre rest before later Heq) as [more [Hb Hr]].
  - intros Hin. rewrite Forall_forall in Hpre. exact (HN (Hpre e Hin)).
  - destruct Hg as [Hg|Hg]; [contradiction|]. rewrite Hb. now apply Hmono.
Qed.

Lemma uses_call {A : Type} (P : event -> Prop) (s : step) (body : prog A) :
  P (entered s) -> P (exited s) -> Uses P body -> Uses P (call s body).
Proof.
  intros He Hx Hb. unfold call, sync.
  apply uses_bind; [constructor; [exact He | intros; constructor]|]. intros _.
  apply uses_bind; [exact Hb|]. intros a.
  apply uses_bind; [constructor; [exact Hx | intros; constructor] | intros; constructor].
Qed.

Section StepOrder.

Variable E : Environment.

Lemma guarded_bind {A B : Type} (m : M E A) (f : A -> M E B)
  (N : event -> Prop) (G : list event -> Prop) :
  Emits E N m -> (forall t pre, G pre -> G (t ++ pre)) ->
  (forall a s, Guarded N G (trace (f a s))) ->
  forall s, Guarded N G (trace (mbind m f s)).
Proof.
  intros Hm Hmono Hf s. rewrite mbind_trace.
  destruct (result (m s)) as [a| |].
  - destruct (Hf a (final (m s))) as [pre [rest [Ht [Hpre Hg]]]].
    exists (trace (m s) ++ pre), rest. rewrite Ht, app_assoc.
    split; [reflexivity|]. split; [apply Forall_app; split; [apply Hm | exact Hpre]|].
    destruct Hg as [Hg|Hg]; [now left | right; now apply Hmono].
  - exists (trace (m s)), []. split; [reflexivity|]. split; [apply Hm | now left].
  - exists (trace (m s)), []. split; [reflexivity|]. split; [apply Hm | now left].
Qed.

Lemma guarded_here {A B : Type} (m : M E A) (f : A -> M E B)
  (N : event -> Prop) (G : list event -> Prop) :
  Emits E N m -> (forall s a, result (m s) = Ok a -> G (trace (m s))) ->
  forall s, Guarded N G (trace (mbind m f s)).
Proof.
  intros Hm Hg s. rewrite mbind_trace.
  destruct (result (m s)) as [a| |] eqn:Hr.
  - exists (trace (m s)), (trace (f a (final (m s)))).
    split; [reflexivity|]. split; [apply Hm | right; now apply (Hg s a)].
  - exists (trace (m s)), []. split; [reflexivity|]. split; [apply Hm | now left].
  - exists (trace (m s)), []. split; [reflexivity|]. split; [apply Hm | now left].
Qed.

Lemma emits_called {A : Type} (P : event -> Prop) (s : step) (body : M E A) :
  P (entered s) -> P (exited s) -> Emits E P body -> Emits E P (called E s body).
Proof.
  intros He Hx Hb. unfold called.
  apply emits_bind; [apply emits_run; unfold sync; constructor;
                     [exact He | intros; constructor]|].
  intros _. apply emits_bind; [exact Hb|].
  intros a. apply emits_bind; [|intros; apply emits_ret].
  apply emits_run. unfold sync. constructor; [exact Hx | intros; constructor].
Qed.

(** The field steps enter and leave no other step than themselves. *)
Lemma field_steps_marks (P : event -> Prop) (browser : Browser) (page : Page)
  (email username : string) :
  (forall e, Silent e -> P e) ->
  (forall st, In st fields -> P (entered st) /\ P (exited st)) ->
  Forall (Uses P) (field_steps browser page email username).
Proof.
  intros Hs Hm.
  assert (Hcall : forall st (b : prog unit),
             In st fields -> Uses Silent b -> Uses P (call st b)).
  { intros st b Hin Hb. destruct (Hm st Hin) as [He Hx].
    apply uses_call; auto. now apply (uses_weaken Silent P). }
  unfold field_steps. repeat apply Forall_cons; try apply Forall_nil; apply Hcall;
    unfold fields; simpl; auto 10.
  - apply silent_enterUsername.
  - apply silent_enterRejectAnnouncements.
  - apply silent_enterPassword.
  - apply silent_waitForUserSolvedCaptcha.
  - apply silent_enterEmail.
Qed.

Lemma fields_returned (browser : Browser) (page : Page) (email username : string)
  (s : St E) (vs : list unit) :
  result (promiseAll (field_steps browser page email username) s) = Ok vs ->
  forall st, In st fields ->
    In (exited st) (trace (promiseAll (field_steps browser page email username) s)).
Proof.
  intros Hok st Hin.
  destruct (promiseAll_called E _ fields s vs
              (field_steps_called browser page email username) Hok)
    as [calls [returns [Ht [_ [_ Hperm]]]]].
  rewrite Ht. apply in_or_app. right.
  assert (Hx : In (exited st) (milestones returns)).
  { apply (Permutation_in _ (Permutation_sym Hperm)). now apply in_map. }
  unfold milestones in Hx. apply filter_In in Hx. tauto.
Qed.

Lemma configuration_returned (page : Page) (s : St E) (a : unit) :
  result (called E Configuration (run E (setAccountConfiguration page)) s) = Ok a ->
  In (exited Configuration)
    (trace (called E Configuration (run E (setAccountConfiguration page)) s)).
Proof.
  intros Hok.
  pose proof (called_ok E Configuration _ s a
                (emits_run E Silent _ (silent_setAccountConfiguration page)) Hok) as Hms.
  assert (Hx : In (exited Configuration)
                 (milestones (trace (called E Configuration
                                       (run E (setAccountConfiguration page)) s)))).
  { rewrite Hms. simpl. tauto. }
  unfold milestones in Hx. apply filter_In in Hx. tauto.
Qed.

End StepOrder.

Ltac differs := intros; unfold entered, exited; discriminate.

(** X6.  In every run of the orchestrator, also one that fails later or
    hangs: account configuration is entered only after each of the five
    field steps has returned, and the avatar step is entered only after
    account configuration has returned. *)
Theorem steps_wait_for_their_predecessors
  (E : Environment) (email : string) (s : St E) :
  (forall before later,
      trace (createGithubAccount E email s) = before ++ entered Configuration :: later ->
      forall st, In st fields -> In (exited st) before)
  /\ (forall before later,
         trace (createGithubAccount E email s) = before ++ entered Avatar :: later ->
         In (exited Configuration) before).
Proof.
  split.
  - intros before later Heq.
    apply (guarded_before (fun e => e <> entered Configuration)
             (fun pre => forall st, In st fields -> In (exited st) pre)
             (trace (createGithubAccount E email s)) before later
             (entered Configuration));
      [ | | exact Heq | intros H; now apply H ].
    + unfold createGithubAccount.
      assert (Hmono : forall t pre : list event,
                 (forall st, In st fields -> In (exited st) pre) ->
                 forall st, In st fields -> In (exited st) (t ++ pre)).
      { intros t pre H st Hin. apply in_or_app. right. now apply H. }
      apply guarded_bind; [apply emits_run; walk differs | exact Hmono|]. intros _.
      apply guarded_bind; [apply emits_run; walk differs | exact Hmono|]. intros session.
      cbv beta zeta.
      apply guarded_bind; [apply emits_run; walk differs | exact Hmono|]. intros _.
      apply guarded_bind; [|exact Hmono|].
      { apply emits_run. unfold derive_username.
        destruct (nth_error (JsString.split "@" email) 0); constructor. }
      intros username. apply guarded_here.
      * apply emits_promiseAll, field_steps_marks.
        -- intros e He Heq'. subst e. discriminate He.
        -- intros st Hin. split; intros Heq'; unfold fields in Hin; simpl in Hin;
             unfold entered, exited in Heq'; inversion Heq'; subst; intuition discriminate.
      * intros s' vs Hok. now apply (fields_returned E _ _ _ _ s' vs).
    + intros pre more H st Hin. apply in_or_app. left. now apply H.
  - intros before later Heq.
    apply (guarded_before (fun e => e <> entered Avatar)
             (fun pre => In (exited Configuration) pre)
             (trace (createGithubAccount E email s)) before later
             (entered Avatar));
      [ | | exact Heq | intros H; now apply H ].
    + unfold createGithubAccount.
      assert (Hmono : forall t pre : list event,
                 In (exited Configuration) pre -> In (exited Configuration) (t ++ pre)).
      { intros t pre H. apply in_or_app. now right. }
      apply guarded_bind; [apply emits_run; walk differs | exact Hmono|]. intros _.
      apply guarded_bind; [apply emits_run; walk differs | exact Hmono|]. intros session.
      cbv beta zeta.
      apply guarded_bind; [apply emits_run; walk differs | exact Hmono|]. intros _.
      apply guarded_bind; [|exact Hmono|].
      { apply emits_run. unfold derive_username.
        destruct (nth_error (JsString.split "@" email) 0); constructor. }
      intros username. apply guarded_bind; [|exact Hmono|].
      { apply emits_promiseAll, field_steps_marks.
        - intros e He Heq'. subst e. discriminate He.
        - intros st Hin. split; intros Heq'; unfold fields in Hin; simpl in Hin;
            unfold entered, exited in Heq'; inversion Heq'; subst; intuition discriminate. }
      intros _. apply guarded_here.
      * apply emits_called; try differs.
        apply emits_run. apply (uses_weaken Silent).
        -- intros e He Heq'. subst e. discriminate He.
        -- apply silent_setAccountConfiguration.
      * intros s' a Hok. exact (configuration_returned E _ s' a Hok).
    + intros pre more H. apply in_or_app. now left.
Qed.

(** ** The worklist *)

Lemma split_pieces_without_separator (sep : ascii) (s p : string) :
  In p (JsString.split sep s) -> JsString.mem sep p = false.
Proof.
  revert p. induction s as [|c rest IH]; intros p; simpl.
  - intros [<-|[]]. reflexivity.
  - destruct (Ascii.eqb c sep) eqn:Hc.
    + intros [<-|Hin]; [reflexivity | now apply IH].
    + destruct (JsString.split sep rest) as [|piece pieces] eqn:Hs.
      * intros [<-|[]]. simpl. now rewrite Ascii.eqb_sym, Hc.
      * intros [<-|Hin].
        -- simpl. rewrite Ascii.eqb_sym, Hc. apply IH. now left.
        -- apply IH. now right.
Qed.

Lemma split_app (sep : ascii) (a b : string) :
  JsString.split sep (a ++ String sep b)%string
  = JsString.split sep a ++ JsString.split sep b.
Proof.
  induction a as [|c a IH]; simpl.
  - now rewrite Ascii.eqb_refl.
  - destruct (Ascii.eqb c sep); [now rewrite IH|].
    rewrite IH. destruct (split_cons sep a) as [piece [pieces Hs]].
    now rewrite Hs.
Qed.

Lemma mem_trimStart (c : ascii) (s : string) :
  JsString.mem c s = false -> JsString.mem c (JsString.trimStart s) = false.
Proof.
  induction s as [|d rest IH]; cbn [JsString.mem JsString.trimStart]; [auto|].
  intros H. apply orb_false_iff in H. destruct H as [H1 H2].
  destruct (JsString.white d); [now apply IH|].
  cbn [JsString.mem]. now rewrite H1, H2.
Qed.

Lemma mem_trimEnd (c : ascii) (s : string) :
  JsString.mem c s = false -> JsString.mem c (JsString.trimEnd s) = false.
Proof.
  induction s as [|d rest IH]; cbn [JsString.mem JsString.trimEnd]; [auto|].
  intros H. apply orb_false_iff in H. destruct H as [H1 H2].
  specialize (IH H2).
  destruct (JsString.trimEnd rest) as [|k kept].
  - destruct (JsString.white d); cbn [JsString.mem]; [reflexivity | now rewrite H1].
  - cbn [JsString.mem] in *. now rewrite H1, IH.
Qed.

Lemma trimEnd_idempotent (s : string) :
  JsString.trimEnd (JsString.trimEnd s) = JsString.trimEnd s.
Proof.
  induction s as [|c rest IH]; cbn [JsString.trimEnd]; [reflexivity|].
  destruct (JsString.trimEnd rest) as [|k kept] eqn:Hk.
  - destruct (JsString.white c) eqn:Hw; cbn [JsString.trimEnd];
      [reflexivity | now rewrite Hw].
  - change (JsString.trimEnd (String c (String k kept)))
      with (match JsString.trimEnd (String k kept) with
            | EmptyString => if JsString.white c then EmptyString else String c EmptyString
            | String a0 s0 => String c (String a0 s0)
            end).
    now rewrite IH.
Qed.

(** The string is empty or begins with a character that is not white
    space. *)
Definition clean_start (s : string) : bool :=
  match s with
  | EmptyString => true
  | String c _ => negb (JsString.white c)
  end.

Lemma trimStart_clean (s : string) : clean_start (JsString.trimStart s) = true.
Proof.
  induction s as [|c rest IH]; cbn [JsString.trimStart]; [reflexivity|].
  destruct (JsString.white c) eqn:Hw; [exact IH|].
  cbn [clean_start]. now rewrite Hw.
Qed.

Lemma trimStart_trimEnd (s : string) :
  clean_start s = true ->
  JsString.trimStart (JsString.trimEnd s) = JsString.trimEnd s.
Proof.
  destruct s as [|c rest]; cbn [clean_start JsString.trimEnd]; [reflexivity|].
  intros Hw. apply negb_true_iff in Hw.
  destruct (JsString.trimEnd rest); rewrite ?Hw; cbn [JsString.trimStart];
    now rewrite Hw.
Qed.

Lemma trim_idempotent (s : string) : JsString.trim (JsString.trim s) = JsString.trim s.
Proof.
  unfold JsString.trim.
  rewrite (trimStart_trimEnd _ (trimStart_clean s)). apply trimEnd_idempotent.
Qed.

(** X7.  Every email for which the batch driver runs the orchestrator is
    not empty, contains no comma, and is trimmed: trimming it again changes
    nothing. *)
Theorem worklist_entries_are_clean (lines : list string) (email : string)
  (Hin : In email (worklist lines)) :
  email <> ""
  /\ JsString.mem "," email = false
  /\ JsString.trim email = email.
Proof.
  unfold worklist in Hin. apply filter_In in Hin. destruct Hin as [Hin Hne].
  apply in_concat in Hin. destruct Hin as [emails [Hl Hin]].
  apply in_map_iff in Hl. destruct Hl as [line [<- _]].
  unfold emails_of in Hin. apply in_map_iff in Hin. destruct Hin as [piece [<- Hp]].
  split; [|split].
  - intros Heq. rewrite Heq in Hne. discriminate.
  - unfold JsString.trim. apply mem_trimEnd, mem_trimStart.
    exact (split_pieces_without_separator "," line piece Hp).
  - apply trim_idempotent.
Qed.

Lemma worklist_entries_are_clean_witness :
  In "b@y.com" (worklist ["a@x.com, ,b@y.com,"])
  /\ "b@y.com" <> ""
  /\ JsString.mem "," "b@y.com" = false
  /\ JsString.trim "b@y.com" = "b@y.com".
Proof.
  assert (Hin : In "b@y.com" (worklist ["a@x.com, ,b@y.com,"])).
  { vm_compute. tauto. }
  split; [exact Hin|].
  exact (worklist_entries_are_clean ["a@x.com, ,b@y.com,"] "b@y.com" Hin).
Defined.

(** ** The two loops of the batch driver *)

Section Loops.

Variable E : Environment.

Lemma mbind_ret_l {A B : Type} (a : A) (f : A -> M E B) (s : St E) :
  mbind (ret a) f s = f a s.
Proof. unfold mbind, ret. simpl. apply after_nil. Qed.

Lemma mbind_ext {A B : Type} (m : M E A) (f g : A -> M E B) (s : St E) :
  (forall a s', f a s' = g a s') -> mbind m f s = mbind m g s.
Proof. intros H. unfold mbind. destruct (result (m s)); now rewrite ?H. Qed.

Lemma mbind_ext_both {A B : Type} (m m' : M E A) (f g : A -> M E B) (s : St E) :
  (forall s', m s' = m' s') -> (forall a s', f a s' = g a s') ->
  mbind m f s = mbind m' g s.
Proof.
  intros Hm H. unfold mbind. rewrite Hm. destruct (result (m' s)); now rewrite ?H.
Qed.

Lemma mbind_assoc {A B C : Type} (m : M E A) (f : A -> M E B) (g : B -> M E C)
  (s : St E) :
  mbind (mbind m f) g s = mbind m (fun a => mbind (f a) g) s.
Proof.
  unfold mbind. destruct (result (m s)) as [a| |]; simpl; try reflexivity.
  destruct (result (f a (final (m s)))) as [b| |]; simpl; try reflexivity.
  now rewrite after_after.
Qed.

Lemma for_each_app {A : Type} (body : A -> M E unit) (xs ys : list A) (s : St E) :
  for_each E body (xs ++ ys) s
  = mbind (for_each E body xs) (fun _ => for_each E body ys) s.
Proof.
  revert s. induction xs as [|x xs IH]; intros s; simpl.
  - now rewrite mbind_ret_l.
  - rewrite mbind_assoc. apply mbind_ext. intros _ s'. apply IH.
Qed.

(** The inner loop skips the empty entries. *)
Lemma for_each_attempt_skips (emails : list string) (s : St E) :
  for_each E (attempt E) emails s
  = for_each E (attempt E)
      (filter (fun email => negb (String.eqb email "")) emails) s.
Proof.
  revert s. induction emails as [|email emails IH]; intros s; simpl; [reflexivity|].
  destruct (String.eqb email "") eqn:Hne; simpl.
  - unfold attempt at 1. rewrite Hne, mbind_ret_l. apply IH.
  - apply mbind_ext. intros _ s'. apply IH.
Qed.

(** The two loops of the driver are one loop over the worklist. *)
Lemma main_over_worklist (lines : list string) (s : St E) :
  main E lines s = for_each E (attempt E) (worklist lines) s.
Proof.
  unfold main, worklist. revert s.
  induction lines as [|line lines IH]; intros s; simpl; [reflexivity|].
  rewrite filter_app, for_each_app.
  apply mbind_ext_both; [apply for_each_attempt_skips | intros _ s'; apply IH].
Qed.

End Loops.

(** X8.  The loop over the lines of the file and the loop over the
    entries of a line behave as one loop over the worklist: the orchestrator
    is run, inside the try and catch, for each email of the worklist in
    order, and nothing else happens.  In particular a file without any
    email, such as an empty file or lines of commas and blanks, makes the
    driver return at once: no browser is launched and nothing is printed. *)
Theorem driver_is_one_loop_over_the_worklist
  (E : Environment) (lines : list string) (s : St E) :
  main E lines s = for_each E (attempt E) (worklist lines) s
  /\ (forall email, In email (worklist lines) ->
      attempt E email
      = try_catch (createGithubAccount E email)
          (fun error => run E (sync (ConsoleLog (LogError error)))))
  /\ (worklist lines = [] -> main E lines s = stop (Ok tt) s).
Proof.
  split; [apply main_over_worklist|]. split.
  - intros email Hin. unfold worklist in Hin. apply filter_In in Hin.
    destruct Hin as [_ Hne]. apply negb_true_iff in Hne.
    unfold attempt. now rewrite Hne.
  - intros Hw. now rewrite main_over_worklist, Hw.
Qed.

(** X9.  A comma and a line break separate emails alike: a line with a
    comma in it and the two lines obtained by breaking it at that comma give
    the same worklist and the same run of the driver. *)
Theorem comma_and_line_break_are_interchangeable
  (E : Environment) (a b : string) (lines : list string) (s : St E) :
  worklist ((a ++ String "," b)%string :: lines) = worklist (a :: b :: lines)
  /\ main E ((a ++ String "," b)%string :: lines) s = main E (a :: b :: lines) s.
Proof.
  assert (Hw : worklist ((a ++ String "," b)%string :: lines)
               = worklist (a :: b :: lines)).
  { unfold worklist, emails_of. simpl.
    now rewrite split_app, map_app, <- app_assoc. }
  split; [exact Hw|]. now rewrite !main_over_worklist, Hw.
Qed.

(** ** A page without the element a step looks for *)

(** A page on which no query finds anything. *)
Definition blank_answer (o : op) (launched : nat) : reply (res o) * nat :=
  match o as o' return reply (res o') * nat with
  | Query _ _ => (Settles 0 [], launched)
  | o' => answer happy_page o' launched
  end.

Definition blank_env : Environment :=
  {| World := nat; respond := blank_answer; sync_respond := sync_answer |}.

(** X10.  [openAccountNavigationSidebar] queries the "Filter" summary
    without waiting for it.  When the query finds no element the step is
    rejected with a type error, raised by reading [evaluate] of [undefined],
    and it has done nothing but the query: in particular it has not
    clicked. *)
Theorem openAccountNavigationSidebar_without_filter
  (E : Environment) (page : Page) (s : St E) (ms : nat) (w : World E)
  (Hnone : respond E (Query page (containing "summary" "Filter")) (world s)
           = (Settles ms ([] : list Handle), w)) :
  result (run E (openAccountNavigationSidebar page) s)
  = Err (TypeError "Cannot read properties of undefined (reading 'evaluate')")
  /\ trace (run E (openAccountNavigationSidebar page) s)
     = [Awaited (Query page (containing "summary" "Filter")) Settled].
Proof.
  unfold openAccountNavigationSidebar. simpl. unfold perform.
  rewrite Hnone. split; reflexivity.
Qed.

Lemma openAccountNavigationSidebar_without_filter_witness :
  result (run blank_env (openAccountNavigationSidebar 0) (boot blank_env 0 []))
  = Err (TypeError "Cannot read properties of undefined (reading 'evaluate')")
  /\ trace (run blank_env (openAccountNavigationSidebar 0) (boot blank_env 0 []))
     = [Awaited (Query 0 (containing "summary" "Filter")) Settled].
Proof.
  apply (openAccountNavigationSidebar_without_filter blank_env 0
           (boot blank_env 0 []) 0 0).
  reflexivity.
Defined.

(** ** What the field steps type, and when *)

Lemma follows_clickVisibleContinue_any (P : list event -> event -> Prop)
  (past : list event) (buttons : list Handle) :
  (forall past h how, P past (Awaited (ComputedVisibility h) how)) ->
  (forall past h how, P past (Awaited (Click h) how)) ->
  Follows P past (clickVisibleContinue buttons).
Proof.
  intros Hv Hc. revert past. induction buttons as [|button rest IH]; intros past; simpl.
  - constructor.
  - apply follows_await; [intros; apply Hv|]. intros visibility.
    destruct (negb (String.eqb visibility "hidden")); [|apply IH].
    apply follows_await; [intros; apply Hc|]. intros x. constructor.
Qed.

(** Walks through the body of a step, leaving to [side] what is asked of
    each event given the events before it. *)
Ltac follow side :=
  repeat
    (cbn [bind];
     lazymatch goal with
     | |- context [close_named ?n ?sc] =>
         let v := eval vm_compute in (close_named n sc) in
         change (close_named n sc) with v
     | |- Follows _ _ (Sync _ _) => apply follows_sync; [side | intros]
     | |- Follows _ _ (Await _ _) => apply follows_await; [side | intros]
     | |- Follows _ _ (Ret _) => apply follows_ret
     | |- Follows _ _ (Throw _) => apply follows_throw
     | |- Follows _ _ (clickVisibleContinue _) =>
         apply follows_clickVisibleContinue_any; side
     | |- Follows _ _ (bind (bind (match ?x with _ => _ end) _) _) => destruct x
     | |- Follows _ _ (bind (match ?x with _ => _ end) _) => destruct x
     | |- Follows _ _ (match ?x with _ => _ end) => destruct x
     end).

(** The password typed by [enterPassword]: 20 characters of the default
    alphabet, typed with a delay of 100 milliseconds after the label
    "Create a password" was seen; nothing is printed. *)
Definition types_password (page : Page) (past : list event) (e : event) : Prop :=
  match e with
  | Awaited (KeyboardType _ text delay) _ =>
      String.length text = 20
      /\ JsString.all (fun c => JsString.mem c default_characters) text = true
      /\ delay = 100
      /\ In (Awaited (WaitForXPath page (containing "label" "Create a password")
                        no_timeout_visible) Settled) past
  | Did (ConsoleLog _) => False
  | _ => True
  end.

Lemma default_password (fill : nat -> Z) :
  let password :=
    JsString.join (List.map (pick_character default_characters)
                     (uint32_elements fill (Z.to_nat default_length))) in
  String.length password = 20
  /\ JsString.all (fun c => JsString.mem c default_characters) password = true.
Proof.
  assert (Hne : default_characters <> "") by discriminate.
  destruct (join_picks default_characters
              (uint32_elements fill (Z.to_nat default_length)) Hne) as [Hlen [Hall _]].
  rewrite uint32_elements_length in Hlen. split; [exact Hlen | exact Hall].
Qed.

Lemma follows_enterPassword (page : Page) :
  Follows (types_password page) [] (enterPassword page).
Proof.
  unfold enterPassword, generatePassword, sleep, getRandomTimeout, await, sync.
  cbn [or_default]. change (default_length <? 0)%Z with false. cbv iota.
  follow ltac:(intros;
               first [ exact I
                     | destruct (default_password x) as [Hlen Hall];
                       split; [exact Hlen | split; [exact Hall | split;
                         [reflexivity | simpl; tauto]]] ]).
Qed.

(** X11.  [enterPassword] prints nothing, and whatever it types is a
    freshly generated password: 20 characters, each of the default alphabet,
    typed with a delay of 100 milliseconds between keys, and only after the
    wait for the label "Create a password" was fulfilled. *)
Theorem enterPassword_types_a_generated_password
  (E : Environment) (page : Page) (s : St E) :
  (announced (trace (run E (enterPassword page) s)) = []
   /\ printed (trace (run E (enterPassword page) s)) = [])
  /\ (forall before later text delay how,
         trace (run E (enterPassword page) s)
         = before ++ Awaited (KeyboardType page text delay) how :: later ->
         String.length text = 20
         /\ JsString.all (fun c => JsString.mem c default_characters) text = true
         /\ delay = 100
         /\ In (Awaited (WaitForXPath page (containing "label" "Create a password")
                           no_timeout_visible) Settled) before).
Proof.
  split.
  - assert (Hd : Forall Discreet (trace (run E (enterPassword page) s))).
    { apply Forall_impl with (P := Silent); [apply silent_discreet|].
      apply run_uses, silent_enterPassword. }
    destruct (discreet_counts _ Hd) as [_ [_ [Ha Hp]]]. now split.
  - intros before later text delay how Heq.
    exact (run_follows E (types_password page) [] _ s
             (follows_enterPassword page) before _ later Heq).
Qed.

(** On the happy page the password is typed once. *)
Example enterPassword_on_happy_page :
  trace (run (page_env happy_page) (enterPassword 0) (boot (page_env happy_page) 0 []))
  = [Did (RandomFill 20); Did MathRandom; Awaited (WaitForTimeout 0 500) Settled;
     Awaited (WaitForXPath 0 (containing "label" "Create a password")
                no_timeout_visible) Settled;
     Awaited (KeyboardType 0 "bctu5MNefw78PghyzARS" 100) Settled;
     Awaited (WaitForXPath 0 (enabled "button" "Continue") no_options) Settled;
     Did MathRandom; Awaited (WaitForTimeout 0 500) Settled;
     Awaited (Query 0 (enabled "button" "Continue")) Settled;
     Awaited (ComputedVisibility 1) Settled; Awaited (ComputedVisibility 2) Settled;
     Awaited (Click 2) Settled].
Proof. vm_compute. reflexivity. Qed.

(** The text typed by a step: [wanted], typed with a delay of 100
    milliseconds after the [label] of the field was seen. *)
Definition types_text (page : Page) (label wanted : string)
  (past : list event) (e : event) : Prop :=
  match e with
  | Awaited (KeyboardType _ text delay) _ =>
      text = wanted /\ delay = 100
      /\ In (Awaited (WaitForXPath page (containing "label" label)
                        no_timeout_visible) Settled) past
  | _ => True
  end.

(** The same for the email, typed after the click on the field. *)
Definition types_email (page : Page) (email : string)
  (past : list event) (e : event) : Prop :=
  match e with
  | Awaited (KeyboardType _ text delay) _ =>
      text = email /\ delay = 100
      /\ In (Awaited (WaitForXPath page (containing "label" "Enter your email")
                        no_timeout_visible) Settled) past
      /\ exists x y, In (Awaited (MouseClick page x y) Settled) past
  | _ => True
  end.

Ltac typed :=
  intros; first [ exact I | split; [reflexivity | split; [reflexivity | simpl; tauto]] ].

Lemma follows_enterUsername (page : Page) (username : string) :
  Follows (types_text page "Enter a username" username) [] (enterUsername page username).
Proof.
  unfold enterUsername, sleep, getRandomTimeout, await, sync. follow typed.
Qed.

Lemma follows_enterRejectAnnouncements (page : Page) :
  Follows (types_text page "Would you like to receive product updates and" "n") []
    (enterRejectAnnouncements page).
Proof.
  unfold enterRejectAnnouncements, sleep, getRandomTimeout, await, sync. follow typed.
Qed.

Lemma follows_enterEmail (browser : Browser) (page : Page) (email : string) :
  Follows (types_email page email) [] (enterEmail browser page email).
Proof.
  unfold enterEmail, clickOnEmailField, checkEmailExistOrInvalid, evaluate, first_of,
    sleep, getRandomTimeout, await, sync.
  follow ltac:(intros;
               first [ exact I
                     | split; [reflexivity | split; [reflexivity | split;
                         [simpl; tauto | eexists; eexists; simpl; eauto 10]]] ]).
Qed.

(** X12.  A field step types only its own text, with a delay of 100
    milliseconds between keys, and only after the wait for the label of its
    field was fulfilled: [enterUsername] the username it was given,
    [enterRejectAnnouncements] the letter n, [enterEmail] the email it was
    given, and this after its click into the field was carried out. *)
Theorem field_steps_type_their_own_text (E : Environment) (page : Page) (s : St E) :
  (forall username before later text delay how,
      trace (run E (enterUsername page username) s)
      = before ++ Awaited (KeyboardType page text delay) how :: later ->
      text = username /\ delay = 100
      /\ In (Awaited (WaitForXPath page (containing "label" "Enter a username")
                        no_timeout_visible) Settled) before)
  /\ (forall before later text delay how,
         trace (run E (enterRejectAnnouncements page) s)
         = before ++ Awaited (KeyboardType page text delay) how :: later ->
         text = "n" /\ delay = 100
         /\ In (Awaited (WaitForXPath page
                           (containing "label"
                              "Would you like to receive product updates and")
                           no_timeout_visible) Settled) before)
  /\ (forall browser email before later text delay how,
         trace (run E (enterEmail browser page email) s)
         = before ++ Awaited (KeyboardType page text delay) how :: later ->
         text = email /\ delay = 100
         /\ In (Awaited (WaitForXPath page (containing "label" "Enter your email")
                           no_timeout_visible) Settled) before
         /\ exists x y, In (Awaited (MouseClick page x y) Settled) before).
Proof.
  split; [|split].
  - intros username before later text delay how Heq.
    exact (run_follows E _ [] _ s (follows_enterUsername page username)
             before _ later Heq).
  - intros before later text delay how Heq.
    exact (run_follows E _ [] _ s (follows_enterRejectAnnouncements page)
             before _ later Heq).
  - intros browser email before later text delay how Heq.
    exact (run_follows E _ [] _ s (follows_enterEmail browser page email)
             before _ later Heq).
Qed.

(** ** Where the typing steps can time out *)

(** No bound runs out but that of the operation [o]. *)
Definition only_times_out (o : op) (e : event) : Prop :=
  forall o', e = Awaited o' (Rejected TimeoutError) -> o' = o.

Lemma timeouts_from {A : Type} (E : Environment) (p : prog A) (o : op) (s : St E) :
  Uses (only_times_out o) p -> Raises (fun _ => False) p ->
  (result (run E p s) = Err TimeoutError
   <-> In (Awaited o (Rejected TimeoutError)) (trace (run E p s)))
  /\ (forall e, result (run E p s) = Err e ->
      e = TimeoutError \/ exists what, e = PageError what).
Proof.
  intros Hu Hr.
  pose proof (run_uses E _ p s Hu) as Honly. rewrite Forall_forall in Honly.
  pose proof (run_uses E _ p s (uses_may_end p)) as Hm. rewrite Forall_forall in Hm.
  split; [split|].
  - intros Herr.
    destruct (run_error_source E _ p s TimeoutError Hr Herr) as [[]|[o' Ho']].
    now rewrite <- (Honly _ Ho' o' eq_refl).
  - apply run_rejected.
  - intros e Herr.
    destruct (run_error_source E _ p s e Hr Herr) as [[]|[o' Ho']].
    specialize (Hm _ Ho'). simpl in Hm.
    destruct e; try contradiction; [now left | right; eauto].
Qed.

Ltac one_timeout :=
  intros; intros o' Heq; inversion Heq; subst;
  first [reflexivity | simpl in *; congruence].

(** The wait of a typing step for its "Continue" button to be enabled. *)
Definition continue_enabled (page : Page) : op :=
  WaitForXPath page (enabled "button" "Continue") no_options.

Lemma timeouts_of_enterUsername (page : Page) (username : string) :
  Uses (only_times_out (continue_enabled page)) (enterUsername page username)
  /\ Raises (fun _ => False) (enterUsername page username).
Proof. split; [walk one_timeout | walk idtac]. Qed.

Lemma timeouts_of_enterRejectAnnouncements (page : Page) :
  Uses (only_times_out (continue_enabled page)) (enterRejectAnnouncements page)
  /\ Raises (fun _ => False) (enterRejectAnnouncements page).
Proof. split; [walk one_timeout | walk idtac]. Qed.

Lemma timeouts_of_enterPassword (page : Page) :
  Uses (only_times_out (continue_enabled page)) (enterPassword page)
  /\ Raises (fun _ => False) (enterPassword page).
Proof.
  unfold enterPassword, generatePassword. cbn [or_default].
  change (default_length <? 0)%Z with false. cbv iota.
  split; [walk one_timeout | walk idtac].
Qed.

(** X13.  Each of the three steps that type into a labelled field can
    time out at one place only, the wait for its "Continue" button to be
    enabled, which is under the default bound: the wait for the label has no
    bound and never times out.  Apart from that timeout the step fails only
    when the page rejects an operation; it throws nothing itself. *)
Theorem typing_steps_time_out_on_continue_only
  (E : Environment) (page : Page) (username : string) (s : St E) :
  bound (continue_enabled page) = Some default_timeout
  /\ ((result (run E (enterUsername page username) s) = Err TimeoutError
       <-> In (Awaited (continue_enabled page) (Rejected TimeoutError))
             (trace (run E (enterUsername page username) s)))
      /\ (forall e, result (run E (enterUsername page username) s) = Err e ->
          e = TimeoutError \/ exists what, e = PageError what))
  /\ ((result (run E (enterRejectAnnouncements page) s) = Err TimeoutError
       <-> In (Awaited (continue_enabled page) (Rejected TimeoutError))
             (trace (run E (enterRejectAnnouncements page) s)))
      /\ (forall e, result (run E (enterRejectAnnouncements page) s) = Err e ->
          e = TimeoutError \/ exists what, e = PageError what))
  /\ ((result (run E (enterPassword page) s) = Err TimeoutError
       <-> In (Awaited (continue_enabled page) (Rejected TimeoutError))
             (trace (run E (enterPassword page) s)))
      /\ (forall e, result (run E (enterPassword page) s) = Err e ->
          e = TimeoutError \/ exists what, e = PageError what)).
Proof.
  split; [reflexivity|]. split; [|split].
  - destruct (timeouts_of_enterUsername page username) as [Hu Hr].
    exact (timeouts_from E _ _ s Hu Hr).
  - destruct (timeouts_of_enterRejectAnnouncements page) as [Hu Hr].
    exact (timeouts_from E _ _ s Hu Hr).
  - destruct (timeouts_of_enterPassword page) as [Hu Hr].
    exact (timeouts_from E _ _ s Hu Hr).
Qed.

(** ** A batch without a browser *)

(** A machine on which no browser can be launched. *)
Definition no_browser_answer (o : op) (launched : nat) : reply (res o) * nat :=
  match o as o' return reply (res o') * nat with
  | Launch => (Rejects "Failed to launch the browser process", launched)
  | o' => answer happy_page o' launched
  end.

Definition no_browser_env : Environment :=
  {| World := nat; respond := no_browser_answer; sync_respond := sync_answer |}.

(** Of the operations, only the launch of a browser was tried. *)
Definition only_launch (e : event) : Prop :=
  match e with Awaited o _ => o = Launch | Did _ => True end.

Section NoBrowser.

Variable E : Environment.
Hypothesis launch_fails :
  forall w, exists what w', respond E Launch w = (Rejects what, w').

Lemma startBrowser_rejected (s : St E) :
  exists what,
    result (run E startBrowser s) = Err (PageError what)
    /\ trace (run E startBrowser s) = [Awaited Launch (Rejected (PageError what))].
Proof.
  destruct (launch_fails (world s)) as [what [w Hw]]. exists what.
  unfold startBrowser, await. cbn [bind]. simpl. unfold perform. rewrite Hw.
  split; reflexivity.
Qed.

Lemma createGithubAccount_rejected (email : string) (s : St E) :
  exists what,
    result (createGithubAccount E email s) = Err (PageError what)
    /\ trace (createGithubAccount E email s)
       = [Did (ConsoleLog (LogEmail email)); Awaited Launch (Rejected (PageError what))].
Proof.
  unfold createGithubAccount. rewrite mbind_result, mbind_trace.
  destruct (run_sync E (ConsoleLog (LogEmail email)) s) as [Hr Ht].
  rewrite Hr, Ht, mbind_result, mbind_trace.
  destruct (startBrowser_rejected (final (run E (sync (ConsoleLog (LogEmail email))) s)))
    as [what [Hres Htr]].
  exists what. rewrite Hres, Htr. split; reflexivity.
Qed.

Lemma for_each_attempt_rejected (emails : list string) (s : St E) :
  Forall (fun email => String.eqb email "" = false) emails ->
  result (for_each E (attempt E) emails s) = Ok tt
  /\ announced (trace (for_each E (attempt E) emails s)) = emails
  /\ List.length (printed (trace (for_each E (attempt E) emails s)))
     = List.length emails
  /\ (forall e, In e (printed (trace (for_each E (attempt E) emails s))) ->
      exists what, e = PageError what)
  /\ Forall only_launch (trace (for_each E (attempt E) emails s))
  /\ count is_launch (trace (for_each E (attempt E) emails s)) = 0.
Proof.
  intros H. revert s. induction H as [|email emails Hne Hrest IH]; intros s.
  - simpl. repeat split; try constructor. intros e [].
  - cbn [for_each]. rewrite mbind_result, mbind_trace.
    destruct (createGithubAccount_rejected email s) as [what [Hres Htr]].
    destruct (attempt_caught E email s _ Hne Hres) as [Hok Ht].
    rewrite Hok, Ht, Htr.
    destruct (IH (final (attempt E email s))) as [I1 [I2 [I3 [I4 [I5 I6]]]]].
    split; [exact I1|]. split; [simpl; now rewrite I2|].
    split; [simpl; now rewrite I3|].
    split.
    { simpl. intros e [<-|Hin]; [eauto | now apply I4]. }
    split.
    { repeat (constructor; [simpl; auto|]). exact I5. }
    rewrite count_app, I6. reflexivity.
Qed.

End NoBrowser.

(** X14.  On a machine where no browser can be launched the batch still
    goes through the whole worklist and returns: for each email in turn it
    prints the email, tries to launch a browser, and prints the error of the
    launch; no operation on a page is tried and no browser is left open. *)
Theorem batch_without_browser (E : Environment) (lines : list string) (s : St E)
  (Hlaunch : forall w, exists what w', respond E Launch w = (Rejects what, w')) :
  result (main E lines s) = Ok tt
  /\ announced (trace (main E lines s)) = worklist lines
  /\ List.length (printed (trace (main E lines s))) = List.length (worklist lines)
  /\ (forall e, In e (printed (trace (main E lines s))) -> exists what, e = PageError what)
  /\ Forall only_launch (trace (main E lines s))
  /\ open_sessions (trace (main E lines s)) = 0.
Proof.
  rewrite main_over_worklist.
  assert (Hne : Forall (fun email => String.eqb email "" = false) (worklist lines)).
  { unfold worklist. apply Forall_forall. intros email Hin.
    apply filter_In in Hin. destruct Hin as [_ Hin]. now apply negb_true_iff. }
  destruct (for_each_attempt_rejected E Hlaunch (worklist lines) s Hne)
    as [H1 [H2 [H3 [H4 [H5 H6]]]]].
  repeat split; auto. unfold open_sessions. now rewrite H6.
Qed.

Lemma batch_without_browser_witness :
  result (main no_browser_env ["a@x.com, ,b@y.com,"] (boot no_browser_env 0 [])) = Ok tt
  /\ announced (trace (main no_browser_env ["a@x.com, ,b@y.com,"]
                         (boot no_browser_env 0 [])))
     = worklist ["a@x.com, ,b@y.com,"]
  /\ List.length (printed (trace (main no_browser_env ["a@x.com, ,b@y.com,"]
                                    (boot no_browser_env 0 []))))
     = List.length (worklist ["a@x.com, ,b@y.com,"])
  /\ (forall e, In e (printed (trace (main no_browser_env ["a@x.com, ,b@y.com,"]
                                        (boot no_browser_env 0 [])))) ->
      exists what, e = PageError what)
  /\ Forall only_launch (trace (main no_browser_env ["a@x.com, ,b@y.com,"]
                                  (boot no_browser_env 0 [])))
  /\ open_sessions (trace (main no_browser_env ["a@x.com, ,b@y.com,"]
                             (boot no_browser_env 0 []))) = 0.
Proof.
  apply (batch_without_browser no_browser_env ["a@x.com, ,b@y.com,"]
           (boot no_browser_env 0 [])).
  intros w. exists "Failed to launch the browser process", w. reflexivity.
Defined.
